(** * Sorted containers of [github.com/mwat56/sortedlists]

    A shallow embedding of the two container types of the Go package
    [sortedlists]: [TSortedSlice] (file [sortedlists.go]) and [TSortedMap]
    (file [sortedmap.go]), together with the properties of their
    [Insert], [Delete], [Rename], [Get] and [Keys] methods.

    Modelling decisions, valid for the whole development:
    - the type parameters [T] and [K] ([cmp.Ordered]) are instantiated at
      Go's [int]; no arithmetic is performed on elements, so an element is
      a [Z] and only its order and equality are used;
    - a slice [[]T] is the list of its elements: [ss.data] and [sm.keys]
      are private and [Data()] and [Keys()] return copies, so neither the
      capacity nor the backing array can be observed;
    - a Go [int] used as an index or a length is a [Z]; lengths are below
      [2^63], so no index computation of the code wraps around;
    - a run-time panic (index or slice bounds out of range) is the
      [Panic] outcome of the [outcome] monad;
    - the [sync.RWMutex] only serialises callers; a method is modelled by
      the sequential function it runs while it holds the lock. *)

From Stdlib Require Import ZArith Lia.
From stdpp Require Import base numbers option list sorting gmap.

Local Open Scope Z_scope.

(** ** Outcomes of Go code that may panic *)

Inductive outcome (A : Type) : Type :=
  | Done (a : A)
  | Panic.
Arguments Done {A} a.
Arguments Panic {A}.

Global Instance outcome_ret : MRet outcome := λ A a, Done a.
Global Instance outcome_bind : MBind outcome := λ A B k m,
  match m with
  | Done a => k a
  | Panic => Panic
  end.
Global Instance outcome_fmap : FMap outcome := λ A B f m,
  match m with
  | Done a => Done (f a)
  | Panic => Panic
  end.

(** ** Go slice primitives on lists *)

Module GoSlice.

(** [len(s)] *)
Definition len {A} (s : list A) : Z := Z.of_nat (length s).

(** [s[i]]: panics unless [0 <= i < len(s)]. *)
Definition index {A} (s : list A) (i : Z) : outcome A :=
  if (0 <=? i) && (i <? len s) then
    match s !! Z.to_nat i with
    | Some x => Done x
    | None => Panic
    end
  else Panic.

(** [s[lo:]]: panics unless [0 <= lo <= len(s)]. *)
Definition slice_lo {A} (s : list A) (lo : Z) : outcome (list A) :=
  if (0 <=? lo) && (lo <=? len s) then Done (drop (Z.to_nat lo) s) else Panic.

(** [s[:hi]]: Go panics unless [0 <= hi <= cap(s)]; the capacity is not
    modelled, and the bound used here is the length, which is the
    stricter of the two. *)
Definition slice_hi {A} (s : list A) (hi : Z) : outcome (list A) :=
  if (0 <=? hi) && (hi <=? len s) then Done (take (Z.to_nat hi) s) else Panic.

(** [s[i] = v]: panics unless [0 <= i < len(s)]. *)
Definition assign {A} (s : list A) (i : Z) (v : A) : outcome (list A) :=
  if (0 <=? i) && (i <? len s) then Done (<[Z.to_nat i := v]> s) else Panic.

(** [copy(s[d:], s[r:])] on one slice [s]: both operands are views of
    the same backing array, [min(len(s[d:]), len(s[r:]))] elements are
    moved as by [memmove], and the effect is seen through [s]. *)
Definition copy_within {A} (s : list A) (d r : Z) : outcome (list A) :=
  dst ← slice_lo s d;
  src ← slice_lo s r;
  let n := Nat.min (length dst) (length src) in
  Done (take (Z.to_nat d) s ++ take n src ++ drop n dst).

End GoSlice.
Import GoSlice.

(** ** The Go standard library functions the package calls

    [sort.Search], [slices.BinarySearch] and [slices.Sort] belong to Go's
    standard library, not to the package; the two searches are embedded
    as the library implements them, since the package also runs them on
    slices that are not sorted. *)

(** The loop of [sort.Search]:
    [for i < j { h := int(uint(i+j) >> 1); if !f(h) { i = h + 1 } else { j = h } }].
    Each iteration at least halves [j - i], so [fuel >= j - i] iterations
    are more than the loop ever runs (see [search_loop_fuel]). *)
Fixpoint search_loop (fuel : nat) (f : Z → bool) (i j : Z) : Z :=
  match fuel with
  | O => i
  | S fuel' =>
      if i <? j then
        let h := Z.shiftr (i + j) 1 in
        if negb (f h) then search_loop fuel' f (h + 1) j
        else search_loop fuel' f i h
      else i
  end.

(** [sort.Search(n, f)] *)
Definition sort_Search (n : Z) (f : Z → bool) : Z :=
  search_loop (Z.to_nat n) f 0 n.

(** The element read by a probe [x[h]] of a binary search.  Every probe is
    made at [i <= h < j] with [0 <= i] and [j <= len(x)], hence in range
    (see [search_loop_ext]: the result does not depend on the value
    chosen here for an index out of range). *)
Definition probe (x : list Z) (h : Z) : Z := default 0 (x !! Z.to_nat h).

(** [slices.BinarySearch(x, target)]: the same loop with
    [cmp.Less(x[h], target)] as the test that moves [i], followed by
    [return i, i < n && x[i] == target]. *)
Definition slices_BinarySearch (x : list Z) (target : Z) : Z * bool :=
  let n := len x in
  let i := sort_Search n (λ h, negb (probe x h <? target)) in
  (i, (i <? n) && (probe x i =? target)).

(** [slices.Sort(x)] on integers.  Go sorts with pattern-defeating
    quicksort; on a total order without distinct equal elements the sorted
    permutation of a list is unique ([slices_Sort_unique]), so any correct
    sorting function denotes the same result. *)
Definition slices_Sort (x : list Z) : list Z := merge_sort Z.le x.

(** ** [TSortedSlice]: the sorted slice of [sortedlists.go] *)

Module SortedSlice.

(** The struct without its mutex. *)
Record TSortedSlice : Type := mkSlice { data : list Z; safe : bool }.

(** The receiver after an assignment to [ss.data]. *)
Definition set_data (ss : TSortedSlice) (d : list Z) : TSortedSlice :=
  {| data := d; safe := safe ss |}.

(** [NewSlice(aList, aSafe)]; [make([]T, 0, 32)] is the empty list.  The
    set keeps the array of [aList]: the model is of a set whose caller
    does not write to [aList] afterwards. *)
Definition NewSlice (aList : list Z) (aSafe : bool) : TSortedSlice :=
  let list := if 0 <? len aList then aList else [] in
  {| data := slices_Sort list; safe := aSafe |}.

(** [Clear()] *)
Definition Clear (ss : TSortedSlice) : TSortedSlice := set_data ss [].

(** [delete(aElement)] *)
Definition delete (aElement : Z) (ss : TSortedSlice)
  : outcome (bool * TSortedSlice) :=
  let sLen := len (data ss) in
  if 0 =? sLen then Done (false, ss)
  else
    let '(idx, ok) := slices_BinarySearch (data ss) aElement in
    if negb ok then Done (false, ss)
    else if idx <? sLen then
      x ← index (data ss) idx;
      if x =? aElement then
        if 0 =? idx then
          if 1 =? sLen then Done (true, set_data ss [])
          else d ← slice_lo (data ss) 1; Done (true, set_data ss d)
        else if sLen - 1 =? idx then
          d ← slice_hi (data ss) idx; Done (true, set_data ss d)
        else
          front ← slice_hi (data ss) idx;
          back ← slice_lo (data ss) (idx + 1);
          Done (true, set_data ss (front ++ back))
      else Done (false, ss)
    else Done (false, ss).

(** [Delete(aElement)] *)
Definition Delete (aElement : Z) (ss : TSortedSlice)
  : outcome (bool * TSortedSlice) := delete aElement ss.

(** [Data()]: a copy of the underlying data. *)
Definition Data (ss : TSortedSlice) : list Z := [] ++ data ss.

(** [findIndex(aElement)] *)
Definition findIndex (aElement : Z) (ss : TSortedSlice) : outcome Z :=
  let sLen := len (data ss) in
  if 0 =? sLen then Done (-1)
  else
    let '(idx, exists_) := slices_BinarySearch (data ss) aElement in
    if negb exists_ then Done (-1)
    else if idx <? sLen then
      x ← index (data ss) idx;
      if x =? aElement then Done idx else Done (-1)
    else Done (-1).

(** [FindIndex(aElement)] *)
Definition FindIndex (aElement : Z) (ss : TSortedSlice) : outcome Z :=
  findIndex aElement ss.

(** [Get(aIndex)]: the zero value of [int] is [0]. *)
Definition Get (aIndex : Z) (ss : TSortedSlice) : outcome (Z * bool) :=
  if aIndex <? len (data ss) then
    x ← index (data ss) aIndex; Done (x, true)
  else Done (0, false).

(** [insert(aElement)] *)
Definition insert (aElement : Z) (ss : TSortedSlice)
  : outcome (bool * TSortedSlice) :=
  let sLen := len (data ss) in
  if 0 =? sLen then Done (true, set_data ss (data ss ++ [aElement]))
  else
    let '(idx, exists_) := slices_BinarySearch (data ss) aElement in
    if negb exists_ then Done (true, set_data ss (data ss ++ [aElement]))
    else if sLen =? idx then Done (true, set_data ss (data ss ++ [aElement]))
    else
      x ← index (data ss) idx;
      if negb (x =? aElement) then
        d ← copy_within (data ss ++ [aElement]) (idx + 1) idx;
        d' ← assign d idx aElement;
        Done (true, set_data ss d')
      else Done (false, ss).

(** [Insert(aElement)] *)
Definition Insert (aElement : Z) (ss : TSortedSlice)
  : outcome (bool * TSortedSlice) := insert aElement ss.

(** [rename(aOldValue, aNewValue)] *)
Definition rename (aOldValue aNewValue : Z) (ss : TSortedSlice)
  : outcome (bool * TSortedSlice) :=
  if (0 =? len (data ss)) || (aOldValue =? aNewValue) then Done (false, ss)
  else
    idx ← findIndex aOldValue ss;
    if 0 >? idx then insert aNewValue ss
    else
      '(inserted, ss1) ← insert aNewValue ss;
      if negb inserted then
        x ← index (data ss1) idx;
        if negb (x =? aNewValue) then
          d ← assign (data ss1) idx aNewValue;
          Done (true, set_data ss1 (slices_Sort d))
        else Done (false, ss1)
      else delete aOldValue ss1.

(** [Rename(aOldValue, aNewValue)] *)
Definition Rename (aOldValue aNewValue : Z) (ss : TSortedSlice)
  : outcome (bool * TSortedSlice) := rename aOldValue aNewValue ss.

(** A call of one of the three mutating methods of the set. *)
Inductive op : Type :=
  | OpInsert (aElement : Z)
  | OpDelete (aElement : Z)
  | OpRename (aOldValue aNewValue : Z).

Definition apply_op (o : op) (ss : TSortedSlice)
  : outcome (bool * TSortedSlice) :=
  match o with
  | OpInsert x => Insert x ss
  | OpDelete x => Delete x ss
  | OpRename x y => Rename x y ss
  end.

(** The calls of [ops] made one after the other on [ss]. *)
Fixpoint run (ops : list op) (ss : TSortedSlice) : outcome TSortedSlice :=
  match ops with
  | [] => Done ss
  | o :: ops' => r ← apply_op o ss; run ops' r.2
  end.

(** [x] is above every element of [s]. *)
Definition above_all (x : Z) (s : list Z) : bool :=
  forallb (λ y, y <? x) s.

(** [x] occurs in [s]. *)
Definition member (x : Z) (s : list Z) : bool :=
  existsb (λ y, y =? x) s.

(** A value new to the set is one that [insert] appends: it keeps the
    order when it is above every element present. *)
Definition appends_in_order (x : Z) (s : list Z) : bool :=
  member x s || above_all x s.

(** The calls on which the set is used as an ordered set: an absent value
    is added ([Insert], or the new value of a [Rename]) only above the
    elements present, and a present value is never renamed to another
    present value. *)
Definition op_in_order (o : op) (s : list Z) : bool :=
  match o with
  | OpInsert x => appends_in_order x s
  | OpDelete _ => true
  | OpRename x y =>
      (x =? y) ||
      (if member x s then negb (member y s) && above_all y s
       else appends_in_order y s)
  end.

Fixpoint ops_in_order (ops : list op) (ss : TSortedSlice) : bool :=
  match ops with
  | [] => true
  | o :: ops' =>
      op_in_order o (data ss) &&
      match apply_op o ss with
      | Done r => ops_in_order ops' r.2
      | Panic => false
      end
  end.

End SortedSlice.

(** ** [TSortedMap]: the sorted map of [sortedmap.go] *)

(** The zero value of a Go type: what [var v V] holds, and what a map read
    gives for an absent key. *)
Class ZeroValue (V : Type) : Type := zero_value : V.
Global Instance int_zero_value : ZeroValue Z := 0.

Module SortedMap.
Section TSortedMap.

(** The value type [V] with its zero value. *)
Context {V : Type} `{ZeroValue V}.

(** The struct without its mutex. *)
Record TSortedMap : Type := mkMap {
  data : gmap Z V;
  keys : list Z;
  safe : bool
}.

(** [v, ok := m[k]] *)
Definition comma_ok (m : gmap Z V) (k : Z) : V * bool :=
  match m !! k with
  | Some v => (v, true)
  | None => (zero_value, false)
  end.

(** [for idx, key := range ks { if key == aKey { ...; break } }]: the
    index at which the body runs, if it does; [idx] counts the keys
    already passed. *)
Fixpoint range_find (aKey : Z) (idx : Z) (ks : list Z) : option Z :=
  match ks with
  | [] => None
  | key :: ks' =>
      if key =? aKey then Some idx else range_find aKey (idx + 1) ks'
  end.

(** [NewSortedMap(aSafe)] *)
Definition NewSortedMap (aSafe : bool) : TSortedMap :=
  {| data := ∅; keys := []; safe := aSafe |}.

(** [Clear()] *)
Definition Clear (sm : TSortedMap) : TSortedMap :=
  {| data := ∅; keys := []; safe := safe sm |}.

(** [delete(aKey)] *)
Definition delete (aKey : Z) (sm : TSortedMap)
  : outcome (bool * TSortedMap) :=
  let '(_, exists_) := comma_ok (data sm) aKey in
  if exists_ then
    let d := base.delete aKey (data sm) in
    ks ← match range_find aKey 0 (keys sm) with
         | Some idx =>
             front ← slice_hi (keys sm) idx;
             back ← slice_lo (keys sm) (idx + 1);
             Done (front ++ back)
         | None => Done (keys sm)
         end;
    Done (true, {| data := d; keys := ks; safe := safe sm |})
  else Done (false, sm).

(** [Delete(aKey)] *)
Definition Delete (aKey : Z) (sm : TSortedMap)
  : outcome (bool * TSortedMap) := delete aKey sm.

(** [Get(aKey)] *)
Definition Get (aKey : Z) (sm : TSortedMap) : V * bool :=
  comma_ok (data sm) aKey.

(** [Keys()]: a copy of the key slice. *)
Definition Keys (sm : TSortedMap) : list Z := [] ++ keys sm.

(** [insert(aKey, aValue)] *)
Definition insert (aKey : Z) (aValue : V) (sm : TSortedMap)
  : outcome (bool * TSortedMap) :=
  let '(_, exists_) := comma_ok (data sm) aKey in
  if exists_ then
    Done (true, {| data := <[aKey := aValue]> (data sm);
                   keys := keys sm; safe := safe sm |})
  else
    let sLen := len (keys sm) in
    ks ← (if 0 =? sLen then Done (keys sm ++ [aKey])
          else
            let idx := sort_Search sLen (λ i, probe (keys sm) i >=? aKey) in
            if sLen =? idx then Done (keys sm ++ [aKey])
            else
              x ← index (keys sm) idx;
              if negb (x =? aKey) then
                d ← copy_within (keys sm ++ [aKey]) (idx + 1) idx;
                assign d idx aKey
              else Done (keys sm));
    Done (true, {| data := <[aKey := aValue]> (data sm);
                   keys := ks; safe := safe sm |}).

(** [Insert(aKey, aValue)] *)
Definition Insert (aKey : Z) (aValue : V) (sm : TSortedMap)
  : outcome (bool * TSortedMap) := insert aKey aValue sm.

(** [rename(aOldKey, aNewKey)] *)
Definition rename (aOldKey aNewKey : Z) (sm : TSortedMap)
  : outcome (bool * TSortedMap) :=
  let '(_, exists_) := comma_ok (data sm) aNewKey in
  if exists_ then Done (false, sm)
  else
    let '(oldValue, exists_) := comma_ok (data sm) aOldKey in
    if negb exists_ || (aOldKey =? aNewKey) then Done (false, sm)
    else
      let d := <[aNewKey := oldValue]> (base.delete aOldKey (data sm)) in
      ks ← match range_find aOldKey 0 (keys sm) with
           | Some idx => assign (keys sm) idx aNewKey
           | None => Done (keys sm)
           end;
      Done (true, {| data := d; keys := slices_Sort ks; safe := safe sm |}).

(** [Rename(aOldKey, aNewKey)] *)
Definition Rename (aOldKey aNewKey : Z) (sm : TSortedMap)
  : outcome (bool * TSortedMap) := rename aOldKey aNewKey sm.

(** A call of one of the four mutating methods of the map. *)
Inductive op : Type :=
  | OpInsert (aKey : Z) (aValue : V)
  | OpDelete (aKey : Z)
  | OpRename (aOldKey aNewKey : Z)
  | OpClear.

Definition apply_op (o : op) (sm : TSortedMap) : outcome TSortedMap :=
  match o with
  | OpInsert k v => r ← Insert k v sm; Done r.2
  | OpDelete k => r ← Delete k sm; Done r.2
  | OpRename k k' => r ← Rename k k' sm; Done r.2
  | OpClear => Done (Clear sm)
  end.

(** The calls of [ops] made one after the other on [sm]. *)
Fixpoint run (ops : list op) (sm : TSortedMap) : outcome TSortedMap :=
  match ops with
  | [] => Done sm
  | o :: ops' => sm' ← apply_op o sm; run ops' sm'
  end.

(** The key slice is the ascending enumeration of the keys of the map:
    it is strictly ascending and holds the keys of [sm.data] and no
    other. *)
Definition keys_in_step (sm : TSortedMap) : Prop :=
  Sorted Z.lt (keys sm) ∧ list_to_set (keys sm) =@{gset Z} dom (data sm).

(** ** The reading methods of the map *)

(** [m[k]] read as one value: the zero value for an absent key. *)
Definition map_index (m : gmap Z V) (k : Z) : V := (comma_ok m k).1.

(** [V] is [comparable]: [==] decides equality of values. *)
Context `{EqDecision V}.

(** [findIndex(aValue)]; [var result []K] is the empty list. *)
Definition findIndex (aValue : V) (sm : TSortedMap) : list Z :=
  fold_left
    (λ result key,
       if decide (map_index (data sm) key = aValue) then result ++ [key]
       else result)
    (keys sm) [].

(** [FindIndex(aValue)] *)
Definition FindIndex (aValue : V) (sm : TSortedMap) : list Z :=
  findIndex aValue sm.

(** [Iterate(f)]: the callback [f] acts on the state of its caller, of
    some type [S]; it does not call back into the map. *)
Definition Iterate {S : Type} (f : Z → V → S → S) (sm : TSortedMap) (s : S)
  : S * TSortedMap :=
  (fold_left (λ s key, f key (map_index (data sm) key) s) (keys sm) s, sm).

(** The closure returned by [Iterator()]: its captured variable [idx];
    the map is reached through the captured pointer [sm], so that each call
    reads the map as it is at that call. *)
Record TIterator : Type := mkIterator { idx : Z }.

(** [Iterator()] *)
Definition Iterator (sm : TSortedMap) : TIterator := {| idx := 0 |}.

(** One call of the closure, on the map as it is now; the zero value of
    a key is [0]. *)
Definition next (it : TIterator) (sm : TSortedMap)
  : outcome ((Z * V * bool) * TIterator) :=
  if idx it <? len (keys sm) then
    key ← index (keys sm) (idx it);
    Done ((key, map_index (data sm) key, true), {| idx := idx it + 1 |})
  else Done ((0, zero_value, false), it).

(** [n] calls of the closure one after the other, on a map that is not
    changed in between: the triples returned, and the closure left. *)
Fixpoint calls (n : nat) (it : TIterator) (sm : TSortedMap)
  : outcome (list (Z * V * bool) * TIterator) :=
  match n with
  | O => Done ([], it)
  | S n' =>
      r ← next it sm;
      rest ← calls n' r.2 sm;
      Done (r.1 :: rest.1, rest.2)
  end.

End TSortedMap.
Arguments TSortedMap V : clear implicits.
Arguments op V : clear implicits.
End SortedMap.

(** Membership in a set built with [∪], [∖] and singletons, as a
    proposition over the memberships in its parts. *)
Ltac unfold_elem_of :=
  apply set_eq; intros ?;
  repeat first
    [ rewrite elem_of_difference | rewrite elem_of_union
    | rewrite elem_of_singleton ].

(** * Properties *)

(** ** Slice primitives inside their bounds *)

Lemma len_nonneg {A} (s : list A) : 0 ≤ len s.
Proof. unfold len. lia. Qed.

Lemma len_app {A} (s t : list A) : len (s ++ t) = len s + len t.
Proof. unfold len. rewrite length_app. lia. Qed.

Lemma index_in_range {A} (s : list A) (i : Z) (x : A) :
  0 ≤ i → s !! Z.to_nat i = Some x → index s i = Done x.
Proof.
  intros Hi Hx. unfold index, len.
  apply lookup_lt_Some in Hx as Hlt.
  rewrite (proj2 (Z.leb_le 0 i)), (proj2 (Z.ltb_lt i _)) by lia.
  simpl. by rewrite Hx.
Qed.

Lemma index_negative {A} (s : list A) (i : Z) : i < 0 → index s i = Panic.
Proof.
  intros Hi. unfold index. by rewrite (proj2 (Z.leb_gt 0 i)) by lia.
Qed.

Lemma slice_lo_in_range {A} (s : list A) (lo : Z) :
  0 ≤ lo ≤ len s → slice_lo s lo = Done (drop (Z.to_nat lo) s).
Proof.
  intros Hlo. unfold slice_lo.
  by rewrite (proj2 (Z.leb_le 0 lo)), (proj2 (Z.leb_le lo _)) by lia.
Qed.

Lemma slice_hi_in_range {A} (s : list A) (hi : Z) :
  0 ≤ hi ≤ len s → slice_hi s hi = Done (take (Z.to_nat hi) s).
Proof.
  intros Hhi. unfold slice_hi.
  by rewrite (proj2 (Z.leb_le 0 hi)), (proj2 (Z.leb_le hi _)) by lia.
Qed.

Lemma assign_in_range {A} (s : list A) (i : Z) (v : A) :
  0 ≤ i < len s → assign s i v = Done (<[Z.to_nat i := v]> s).
Proof.
  intros Hi. unfold assign.
  by rewrite (proj2 (Z.leb_le 0 i)), (proj2 (Z.ltb_lt i _)) by lia.
Qed.

(** The three statements [s = append(s, v); copy(s[i+1:], s[i:]); s[i] = v]
    put [v] at position [i] and move the elements from [i] on one place up. *)
Lemma shift_insert {A} (s : list A) (i : Z) (v : A) :
  0 ≤ i < len s →
  (d ← copy_within (s ++ [v]) (i + 1) i; assign d i v)
  = Done (take (Z.to_nat i) s ++ v :: drop (Z.to_nat i) s).
Proof.
  intros Hi. unfold copy_within.
  rewrite !slice_lo_in_range by (rewrite len_app; unfold len in *; simpl; lia).
  cbn -[Z.to_nat Z.add take drop].
  unfold len in Hi.
  replace (Z.to_nat (i + 1)) with (S (Z.to_nat i)) by lia.
  set (n := Z.to_nat i) in *.
  assert (Hn : (n < length s)%nat) by lia.
  set (dst := drop (S n) (s ++ [v])). set (src := drop n (s ++ [v])).
  assert (Hmin : (length dst `min` length src)%nat = length (drop n s)).
  { unfold dst, src. rewrite !length_drop, length_app. simpl. lia. }
  rewrite Hmin.
  assert (Hsrc : src = drop n s ++ [v]).
  { unfold src. rewrite drop_app. by replace (n - length s)%nat with 0%nat by lia. }
  rewrite Hsrc, take_app_length.
  rewrite (drop_ge dst).
  2:{ unfold dst. rewrite !length_drop, length_app. simpl. lia. }
  rewrite app_nil_r, (take_app_le s [v] (S n)) by lia.
  destruct (lookup_lt_is_Some_2 s n Hn) as [y Hy].
  rewrite (take_S_r s n y Hy), <- app_assoc. simpl.
  rewrite assign_in_range.
  2:{ unfold len. rewrite length_app, length_take. simpl. rewrite length_drop. lia. }
  f_equal. fold n.
  rewrite insert_app_r_alt by (rewrite length_take; lia).
  rewrite length_take, Nat.min_l by lia.
  by rewrite Nat.sub_diag.
Qed.

(** ** The binary search loop *)

(** More fuel than [j - i] does not change the result: the loop has
    ended by itself. *)
Lemma search_loop_fuel (f : Z → bool) (fuel fuel' : nat) (i j : Z) :
  (Z.to_nat (j - i) ≤ fuel)%nat → (Z.to_nat (j - i) ≤ fuel')%nat →
  search_loop fuel f i j = search_loop fuel' f i j.
Proof.
  revert fuel' i j. induction fuel as [|fuel IH]; intros fuel' i j H1 H2.
  - destruct fuel' as [|fuel']; [done|]. simpl.
    by rewrite (proj2 (Z.ltb_ge i j)) by lia.
  - destruct fuel' as [|fuel'].
    + simpl. by rewrite (proj2 (Z.ltb_ge i j)) by lia.
    + simpl. destruct (Z.ltb_spec i j) as [Hlt|]; [|done].
      assert (Hh : i ≤ Z.shiftr (i + j) 1 < j).
      { rewrite Z.shiftr_div_pow2 by lia. change (2 ^ 1) with 2.
        split; [apply Z.div_le_lower_bound | apply Z.div_lt_upper_bound]; lia. }
      destruct (f _); simpl; apply IH; lia.
Qed.

(** The loop only evaluates [f] between its bounds. *)
Lemma search_loop_ext (f g : Z → bool) (fuel : nat) (i j : Z) :
  (∀ h, i ≤ h < j → f h = g h) →
  search_loop fuel f i j = search_loop fuel g i j.
Proof.
  revert i j. induction fuel as [|fuel IH]; intros i j Hfg; [done|].
  simpl. destruct (Z.ltb_spec i j) as [Hlt|]; [|done].
  assert (Hh : i ≤ Z.shiftr (i + j) 1 < j).
  { rewrite Z.shiftr_div_pow2 by lia. change (2 ^ 1) with 2.
    split; [apply Z.div_le_lower_bound | apply Z.div_lt_upper_bound]; lia. }
  rewrite <- (Hfg _ Hh).
  destruct (f _); simpl; apply IH; intros h ?; apply Hfg; lia.
Qed.

(** The invariant of the loop, as the comments of [sort.Search] state it:
    [f(i-1) == false] and [f(j) == true], the ends [lo - 1] and [hi]
    being taken as [false] and [true]. *)
Lemma search_loop_invariant (f : Z → bool) (lo hi : Z) (fuel : nat) (i j : Z) :
  (Z.to_nat (j - i) ≤ fuel)%nat →
  lo ≤ i → i ≤ j → j ≤ hi →
  (lo < i → f (i - 1) = false) →
  (j < hi → f j = true) →
  let r := search_loop fuel f i j in
  i ≤ r ≤ j ∧ (lo < r → f (r - 1) = false) ∧ (r < hi → f r = true).
Proof.
  revert i j. induction fuel as [|fuel IH]; intros i j Hfuel Hlo Hij Hhi Hi Hj.
  - simpl. assert (i = j) as -> by lia. auto with lia.
  - simpl. destruct (Z.ltb_spec i j) as [Hlt|Hge].
    + assert (Hh : i ≤ Z.shiftr (i + j) 1 < j).
      { rewrite Z.shiftr_div_pow2 by lia. change (2 ^ 1) with 2.
        split; [apply Z.div_le_lower_bound | apply Z.div_lt_upper_bound]; lia. }
      set (h := Z.shiftr (i + j) 1) in *.
      destruct (f h) eqn:Hfh; simpl.
      * destruct (IH i h) as (?&?&?); auto with lia.
      * destruct (IH (h + 1) j) as (?&?&?); auto with lia.
        intros _. by replace (h + 1 - 1) with h by lia.
    + assert (i = j) as -> by lia. auto with lia.
Qed.

Lemma sort_Search_invariant (n : Z) (f : Z → bool) :
  0 ≤ n →
  let r := sort_Search n f in
  0 ≤ r ≤ n ∧ (0 < r → f (r - 1) = false) ∧ (r < n → f r = true).
Proof.
  intros Hn. unfold sort_Search.
  apply (search_loop_invariant f 0 n); auto with lia.
Qed.

(** ** Strictly ascending lists *)

Lemma ascending_strongly (s : list Z) : Sorted Z.lt s ↔ StronglySorted Z.lt s.
Proof.
  split; [apply Sorted_StronglySorted, _ | apply StronglySorted_Sorted].
Qed.

Lemma ascending_lookup (s : list Z) (a b : nat) (x y : Z) :
  StronglySorted Z.lt s → (a < b)%nat →
  s !! a = Some x → s !! b = Some y → x < y.
Proof.
  intros Hs. revert a b. induction Hs as [|z s Hs IH Hz]; intros a b Hab Ha Hb.
  - by rewrite lookup_nil in Ha.
  - destruct b as [|b]; [lia|]. simpl in Hb. destruct a as [|a].
    + injection Ha as ->. rewrite Forall_forall in Hz.
      apply Hz. by eapply list_elem_of_lookup_2.
    + simpl in Ha. apply (IH a b); [lia|done..].
Qed.

Lemma ascending_NoDup (s : list Z) : Sorted Z.lt s → NoDup s.
Proof.
  rewrite ascending_strongly. induction 1 as [|z s Hs IH Hz]; constructor; [|done].
  intros Hin. rewrite Forall_forall in Hz. specialize (Hz _ Hin). lia.
Qed.

Lemma ascending_snoc (s : list Z) (x : Z) :
  Sorted Z.lt s → Forall (λ y, y < x) s → Sorted Z.lt (s ++ [x]).
Proof.
  rewrite !ascending_strongly, StronglySorted_app. intros Hs Hx.
  split_and!; [|done|repeat constructor].
  intros y z Hy ->%list_elem_of_singleton.
  rewrite Forall_forall in Hx. by apply Hx.
Qed.

Lemma ascending_remove (s : list Z) (i : nat) :
  Sorted Z.lt s → Sorted Z.lt (take i s ++ drop (S i) s).
Proof.
  rewrite !ascending_strongly. intros Hs.
  rewrite <- (take_drop i s) in Hs.
  apply StronglySorted_app in Hs as (Hlt & Hfront & Hback).
  apply StronglySorted_app. split_and!; [|done|].
  - intros y z Hy Hz. apply Hlt; [done|].
    destruct (drop i s) as [|w back] eqn:Hd.
    + rewrite <- (Nat.add_1_r i), <- drop_drop, Hd in Hz. by rewrite drop_nil in Hz.
    + rewrite <- (Nat.add_1_r i), <- drop_drop, Hd in Hz. simpl in Hz.
      rewrite drop_0 in Hz. by right.
  - rewrite <- (Nat.add_1_r i), <- drop_drop.
    destruct (drop i s) as [|w back]; simpl; [constructor|].
    rewrite drop_0. by apply StronglySorted_inv in Hback as [? _].
Qed.

Lemma ascending_insert (front back : list Z) (x : Z) :
  Sorted Z.lt (front ++ back) →
  Forall (λ y, y < x) front → Forall (λ y, x < y) back →
  Sorted Z.lt (front ++ x :: back).
Proof.
  rewrite !ascending_strongly, !StronglySorted_app, !Forall_forall.
  intros (Hlt & Hfront & Hback) Hf Hb. split_and!; [|done|].
  - intros y z Hy [->|Hz]%elem_of_cons; [by apply Hf|by apply Hlt].
  - constructor; [done|]. by apply Forall_forall.
Qed.

(** [slices.Sort] returns the ascending permutation of its argument. *)
Lemma slices_Sort_Sorted (x : list Z) : Sorted Z.le (slices_Sort x).
Proof. apply Sorted_merge_sort, _. Qed.

Lemma slices_Sort_Permutation (x : list Z) : slices_Sort x ≡ₚ x.
Proof. apply merge_sort_Permutation. Qed.

(** There is one ascending permutation of a list of integers, whatever
    the algorithm that computes it. *)
Lemma slices_Sort_unique (x y : list Z) :
  Sorted Z.le y → y ≡ₚ x → y = slices_Sort x.
Proof.
  intros Hy Hp. apply (Sorted_unique Z.le); [done|apply slices_Sort_Sorted|].
  by rewrite slices_Sort_Permutation.
Qed.

Lemma slices_Sort_ascending (x : list Z) : NoDup x → Sorted Z.lt (slices_Sort x).
Proof.
  intros Hnd.
  assert (Hnd' : NoDup (slices_Sort x)) by by rewrite slices_Sort_Permutation.
  pose proof (slices_Sort_Sorted x) as Hs.
  apply (Sorted_StronglySorted _) in Hs.
  apply ascending_strongly.
  induction Hs as [|z s Hs IH Hz]; [constructor|].
  apply NoDup_cons in Hnd' as [Hz' Hnd'].
  constructor; [by apply IH|].
  rewrite Forall_forall in *. intros y Hy. specialize (Hz y Hy).
  assert (y ≠ z) by (by intros ->). lia.
Qed.

(** ** Binary search *)

Lemma probe_lookup (x : list Z) (h : Z) (y : Z) :
  x !! Z.to_nat h = Some y → probe x h = y.
Proof. unfold probe. by intros ->. Qed.

Lemma probe_in_range (x : list Z) (h : Z) :
  0 ≤ h < len x → x !! Z.to_nat h = Some (probe x h).
Proof.
  unfold len, probe. intros Hh.
  destruct (lookup_lt_is_Some_2 x (Z.to_nat h)) as [y ->]; [lia|done].
Qed.

Lemma BinarySearch_range (x : list Z) (target : Z) :
  0 ≤ (slices_BinarySearch x target).1 ≤ len x.
Proof.
  unfold slices_BinarySearch. simpl.
  by destruct (sort_Search_invariant (len x)
    (λ h, negb (probe x h <? target)) (len_nonneg x)) as [? _].
Qed.

(** What [slices.BinarySearch] reports as found is at the position
    returned, on any slice. *)
Lemma BinarySearch_found (x : list Z) (target : Z) :
  (slices_BinarySearch x target).2 = true →
  0 ≤ (slices_BinarySearch x target).1 < len x ∧
  x !! Z.to_nat (slices_BinarySearch x target).1 = Some target.
Proof.
  pose proof (BinarySearch_range x target) as Hr.
  unfold slices_BinarySearch in *. simpl in *.
  intros [Hlt Heq]%andb_true_iff.
  apply Z.ltb_lt in Hlt. apply Z.eqb_eq in Heq.
  split; [lia|]. etrans; [apply probe_in_range; lia|]. by f_equal.
Qed.

(** On an ascending slice the position returned by the search splits the
    slice into the elements below the target and the others. *)
Lemma sort_Search_lower_bound (x : list Z) (t : Z) (f : Z → bool) :
  Sorted Z.lt x →
  (∀ h, f h = negb (probe x h <? t)) →
  let r := sort_Search (len x) f in
  0 ≤ r ≤ len x ∧
  Forall (λ y, y < t) (take (Z.to_nat r) x) ∧
  Forall (λ y, t ≤ y) (drop (Z.to_nat r) x).
Proof.
  rewrite ascending_strongly. intros Hs Hf.
  destruct (sort_Search_invariant (len x) f (len_nonneg x)) as (Hr & Hbelow & Habove).
  simpl. set (r := sort_Search (len x) f) in *.
  split_and!; [lia..| |].
  - apply Forall_lookup_2. intros a y Hy.
    apply lookup_lt_Some in Hy as Ha. rewrite length_take in Ha.
    rewrite lookup_take_lt in Hy by lia.
    assert (Hr0 : 0 < r) by lia. specialize (Hbelow Hr0).
    rewrite Hf in Hbelow. apply negb_false_iff, Z.ltb_lt in Hbelow.
    pose proof (probe_in_range x (r - 1)) as Hp.
    destruct (decide (a = Z.to_nat (r - 1))) as [->|Hne].
    + rewrite Hp in Hy by lia. congruence.
    + unfold len in *.
      pose proof (ascending_lookup x a (Z.to_nat (r - 1)) y
        (probe x (r - 1)) Hs) as Hlt.
      specialize (Hlt ltac:(lia) Hy (Hp ltac:(lia))). lia.
  - apply Forall_lookup_2. intros a y Hy. rewrite lookup_drop in Hy.
    apply lookup_lt_Some in Hy as Ha. unfold len in *.
    assert (Hrn : r < Z.of_nat (length x)) by lia. specialize (Habove Hrn).
    rewrite Hf in Habove. apply negb_true_iff, Z.ltb_ge in Habove.
    pose proof (probe_in_range x r) as Hp. unfold len in Hp.
    destruct a as [|a].
    + rewrite Nat.add_0_r, Hp in Hy by lia. congruence.
    + pose proof (ascending_lookup x (Z.to_nat r) (Z.to_nat r + S a)
        (probe x r) y Hs) as Hlt.
      specialize (Hlt ltac:(lia) (Hp ltac:(lia)) Hy). lia.
Qed.

(** On an ascending slice [slices.BinarySearch] finds exactly the
    elements of the slice. *)
Lemma BinarySearch_ascending (x : list Z) (target : Z) :
  Sorted Z.lt x →
  (slices_BinarySearch x target).2 = true ↔ target ∈ x.
Proof.
  intros Hs. split.
  - intros [_ Hx]%BinarySearch_found. by eapply list_elem_of_lookup_2.
  - intros Hin.
    destruct (sort_Search_lower_bound x target _ Hs (λ h, eq_refl))
      as (Hr & Hbelow & Habove).
    unfold slices_BinarySearch. simpl.
    set (r := sort_Search _ _) in *.
    rewrite <- (take_drop (Z.to_nat r) x) in Hin.
    apply elem_of_app in Hin as [Hin|Hin].
    { rewrite Forall_forall in Hbelow. specialize (Hbelow _ Hin). lia. }
    destruct (drop (Z.to_nat r) x) as [|y back] eqn:Hd; [by apply elem_of_nil in Hin|].
    assert (Hy : x !! Z.to_nat r = Some y).
    { rewrite <- (Nat.add_0_r (Z.to_nat r)), <- lookup_drop. by rewrite Hd. }
    apply lookup_lt_Some in Hy as Hlt. unfold len in *.
    apply andb_true_iff. split; [apply Z.ltb_lt; lia|].
    rewrite (probe_lookup _ _ _ Hy). apply Z.eqb_eq.
    apply Forall_cons in Habove as [Hle _].
    apply elem_of_cons in Hin as [->|Hin]; [done|].
    apply ascending_strongly in Hs.
    rewrite <- (take_drop (Z.to_nat r) x), Hd in Hs.
    apply StronglySorted_app in Hs as (_ & _ & Hs).
    apply StronglySorted_inv in Hs as [_ Hs].
    rewrite Forall_forall in Hs. specialize (Hs _ Hin). lia.
Qed.

(** ** The methods of [TSortedSlice] *)

Section SortedSliceFacts.
Import SortedSlice.

(** The run of [main.go] with the outputs it documents. *)
Example main_go :
  Data (NewSlice [5; 3; 4; 1; 2] false) = [1; 2; 3; 4; 5] ∧
  Data <$> run [OpInsert 6] (NewSlice [5; 3; 4; 1; 2] false)
    = Done [1; 2; 3; 4; 5; 6] ∧
  Data <$> run [OpInsert 6; OpDelete 3] (NewSlice [5; 3; 4; 1; 2] false)
    = Done [1; 2; 4; 5; 6] ∧
  Data <$> run [OpInsert 6; OpDelete 3; OpRename 4 7]
             (NewSlice [5; 3; 4; 1; 2] false)
    = Done [1; 2; 5; 6; 7].
Proof. split_and!; reflexivity. Qed.

Lemma member_elem_of (x : Z) (s : list Z) : member x s = true ↔ x ∈ s.
Proof.
  unfold member. rewrite existsb_exists. setoid_rewrite <- list_elem_of_In.
  split.
  - by intros (y & Hy & ->%Z.eqb_eq).
  - intros Hx. exists x. by rewrite Z.eqb_refl.
Qed.

Lemma above_all_Forall (x : Z) (s : list Z) :
  above_all x s = true ↔ Forall (λ y, y < x) s.
Proof.
  unfold above_all. rewrite forallb_forall, Forall_forall.
  setoid_rewrite <- list_elem_of_In. by setoid_rewrite Z.ltb_lt.
Qed.

Lemma len_zero {A} (s : list A) : (0 =? len s) = true ↔ s = [].
Proof.
  rewrite Z.eqb_eq. unfold len. destruct s; simpl; split; (done || lia).
Qed.

(** [insert] never panics and takes one of two ways, on any slice: what
    the search finds is left alone, anything else is appended. *)
Lemma insert_unfold (x : Z) (ss : TSortedSlice) :
  insert x ss =
    if (slices_BinarySearch (data ss) x).2 then Done (false, ss)
    else Done (true, set_data ss (data ss ++ [x])).
Proof.
  unfold insert. destruct (0 =? len (data ss)) eqn:Hlen.
  { apply len_zero in Hlen. by rewrite Hlen. }
  pose proof (BinarySearch_found (data ss) x) as Hfound.
  destruct (slices_BinarySearch (data ss) x) as [idx found].
  destruct found; cbn [fst snd negb] in *; [|done].
  destruct Hfound as [Hidx Hx]; [done|].
  rewrite (proj2 (Z.eqb_neq _ _)) by lia.
  rewrite (index_in_range _ _ _ (proj1 Hidx) Hx). simpl.
  by rewrite Z.eqb_refl.
Qed.

(** [delete] never panics and removes the position at which the search
    finds the element, on any slice. *)
Lemma delete_unfold (x : Z) (ss : TSortedSlice) :
  delete x ss =
    if (slices_BinarySearch (data ss) x).2 then
      let i := Z.to_nat (slices_BinarySearch (data ss) x).1 in
      Done (true, set_data ss (take i (data ss) ++ drop (S i) (data ss)))
    else Done (false, ss).
Proof.
  unfold delete. destruct (0 =? len (data ss)) eqn:Hlen.
  { apply len_zero in Hlen. by rewrite Hlen. }
  pose proof (BinarySearch_found (data ss) x) as Hfound.
  destruct (slices_BinarySearch (data ss) x) as [idx found].
  destruct found; cbn [fst snd negb] in *; [|done].
  destruct Hfound as [Hidx Hx]; [done|].
  rewrite (proj2 (Z.ltb_lt _ _)) by lia.
  rewrite (index_in_range _ _ _ (proj1 Hidx) Hx). cbn [mbind outcome_bind].
  rewrite Z.eqb_refl. unfold len in *.
  destruct (Z.eqb_spec 0 idx) as [<-|Hidx0].
  - destruct (Z.eqb_spec 1 (Z.of_nat (length (data ss)))) as [Hone|Hmore].
    + destruct (data ss) as [|y [|z s]]; simpl in *; (done || lia).
    + rewrite slice_lo_in_range by (unfold len; lia). done.
  - destruct (Z.eqb_spec (Z.of_nat (length (data ss)) - 1) idx) as [Hlast|Hmid].
    + rewrite slice_hi_in_range by (unfold len; lia). simpl.
      rewrite (drop_ge _ (S _)) by lia. by rewrite app_nil_r.
    + rewrite slice_hi_in_range, slice_lo_in_range by (unfold len; lia). simpl.
      by replace (Z.to_nat (idx + 1)) with (S (Z.to_nat idx)) by lia.
Qed.

(** [findIndex] never panics. *)
Lemma findIndex_unfold (x : Z) (ss : TSortedSlice) :
  findIndex x ss =
    Done (if (slices_BinarySearch (data ss) x).2
          then (slices_BinarySearch (data ss) x).1 else -1).
Proof.
  unfold findIndex. destruct (0 =? len (data ss)) eqn:Hlen.
  { apply len_zero in Hlen. by rewrite Hlen. }
  pose proof (BinarySearch_found (data ss) x) as Hfound.
  destruct (slices_BinarySearch (data ss) x) as [idx found].
  destruct found; cbn [fst snd negb] in *; [|done].
  destruct Hfound as [Hidx Hx]; [done|].
  rewrite (proj2 (Z.ltb_lt _ _)) by lia.
  rewrite (index_in_range _ _ _ (proj1 Hidx) Hx). simpl.
  by rewrite Z.eqb_refl.
Qed.

(** [rename] never panics; its four ways, on any slice. *)
Lemma rename_unfold (x y : Z) (ss : TSortedSlice) :
  rename x y ss =
    if (0 =? len (data ss)) || (x =? y) then Done (false, ss)
    else if (slices_BinarySearch (data ss) x).2 then
      if (slices_BinarySearch (data ss) y).2 then
        let i := Z.to_nat (slices_BinarySearch (data ss) x).1 in
        Done (true, set_data ss (slices_Sort (<[i := y]> (data ss))))
      else delete x (set_data ss (data ss ++ [y]))
    else insert y ss.
Proof.
  unfold rename. destruct ((0 =? len (data ss)) || (x =? y)) eqn:Hguard; [done|].
  apply orb_false_iff in Hguard as [_ Hxy].
  rewrite findIndex_unfold.
  pose proof (BinarySearch_found (data ss) x) as Hfound.
  destruct (slices_BinarySearch (data ss) x) as [idx found].
  destruct found; cbn [fst snd negb mbind outcome_bind] in *; [|reflexivity].
  destruct Hfound as [Hidx Hx]; [done|].
  replace (0 >? idx) with false by (symmetry; rewrite Z.gtb_ltb; apply Z.ltb_ge; lia).
  rewrite insert_unfold.
  destruct (slices_BinarySearch (data ss) y).2; cbn [mbind outcome_bind negb]; [|done].
  rewrite (index_in_range _ _ _ (proj1 Hidx) Hx). cbn [mbind outcome_bind].
  rewrite Hxy. cbn [negb]. by rewrite assign_in_range.
Qed.

(** On an ascending slice the search finds the elements of the slice. *)
Lemma insert_ascending (x : Z) (ss : TSortedSlice) :
  Sorted Z.lt (data ss) →
  insert x ss =
    if member x (data ss) then Done (false, ss)
    else Done (true, set_data ss (data ss ++ [x])).
Proof.
  intros Hs. rewrite insert_unfold.
  pose proof (BinarySearch_ascending _ x Hs) as Hfound.
  rewrite <- member_elem_of in Hfound.
  destruct (slices_BinarySearch (data ss) x).2, (member x (data ss)); try done.
  - destruct Hfound as [Hf _]. by specialize (Hf eq_refl).
  - destruct Hfound as [_ Hf]. by specialize (Hf eq_refl).
Qed.

Lemma delete_ascending (x : Z) (ss : TSortedSlice) :
  Sorted Z.lt (data ss) →
  ∃ r, delete x ss = Done r ∧ Sorted Z.lt (data r.2) ∧
       r.1 = member x (data ss) ∧
       ∀ y, y ∈ data r.2 ↔ y ∈ data ss ∧ y ≠ x.
Proof.
  intros Hs. rewrite delete_unfold.
  pose proof (BinarySearch_ascending _ x Hs) as Hmem.
  pose proof (BinarySearch_found (data ss) x) as Hfound.
  rewrite <- member_elem_of in Hmem.
  destruct (slices_BinarySearch (data ss) x) as [idx found].
  destruct found; simpl in *.
  - destruct Hfound as [Hidx Hx]; [done|].
    eexists. split; [done|]. simpl.
    split_and!; [by apply ascending_remove|symmetry; by apply Hmem|].
    intros y. apply ascending_NoDup in Hs.
    rewrite <- (take_drop_middle _ _ _ Hx) in Hs at 1.
    rewrite <- (take_drop_middle _ _ _ Hx) at 3.
    apply NoDup_app in Hs as (_ & Hfront & Hback).
    apply NoDup_cons in Hback as [Hback _].
    rewrite !elem_of_app, elem_of_cons.
    specialize (Hfront x). rewrite elem_of_cons in Hfront.
    split.
    + intros [Hy|Hy]; (split; [tauto|]); intros ->; [by eapply Hfront; [|left]|done].
    + intros [[Hy|[->|Hy]] Hne]; tauto.
  - assert (Hm : member x (data ss) = false).
    { destruct (member x (data ss)); [symmetry; by apply Hmem|done]. }
    eexists. split; [done|]. simpl. split_and!; [done..|].
    intros y. split; [|tauto]. intros Hy. split; [done|]. intros ->.
    apply member_elem_of in Hy. congruence.
Qed.

Lemma BinarySearch_member (x : list Z) (target : Z) :
  Sorted Z.lt x → (slices_BinarySearch x target).2 = member target x.
Proof.
  intros Hs. pose proof (BinarySearch_ascending x target Hs) as Hfound.
  rewrite <- member_elem_of in Hfound.
  destruct (slices_BinarySearch x target).2, (member target x); try done.
  - destruct Hfound as [Hf _]. by specialize (Hf eq_refl).
  - destruct Hfound as [_ Hf]. by specialize (Hf eq_refl).
Qed.

(** ** The order of the set under its mutating methods *)

Lemma insert_in_order (x : Z) (ss : TSortedSlice) :
  Sorted Z.lt (data ss) → appends_in_order x (data ss) = true →
  ∃ r, insert x ss = Done r ∧ Sorted Z.lt (data r.2).
Proof.
  intros Hs Hx. rewrite (insert_ascending x ss Hs).
  unfold appends_in_order in Hx.
  destruct (member x (data ss)); [by eexists|].
  eexists. split; [done|]. simpl.
  by apply ascending_snoc, above_all_Forall.
Qed.

Lemma apply_op_in_order (o : op) (ss : TSortedSlice) :
  Sorted Z.lt (data ss) → op_in_order o (data ss) = true →
  ∃ r, apply_op o ss = Done r ∧ Sorted Z.lt (data r.2).
Proof.
  intros Hs Ho. destruct o as [x|x|x y]; simpl in *.
  - by apply insert_in_order.
  - destruct (delete_ascending x ss Hs) as (r & Hr & Hs' & _). by exists r.
  - unfold Rename. rewrite rename_unfold.
    destruct ((0 =? len (data ss)) || (x =? y)) eqn:Hguard; [by eexists|].
    apply orb_false_iff in Hguard as [_ Hxy]. rewrite Hxy in Ho. simpl in Ho.
    rewrite (BinarySearch_member _ x Hs), (BinarySearch_member _ y Hs).
    destruct (member x (data ss)); [|by apply insert_in_order].
    apply andb_true_iff in Ho as [Hy Habove].
    apply negb_true_iff in Hy. rewrite Hy.
    destruct (delete_ascending x (set_data ss (data ss ++ [y]))) as (r & Hr & Hs' & _).
    { simpl. by apply ascending_snoc, above_all_Forall. }
    by exists r.
Qed.

Lemma run_in_order (ops : list op) (ss : TSortedSlice) :
  Sorted Z.lt (data ss) → ops_in_order ops ss = true →
  ∃ ss', run ops ss = Done ss' ∧ Sorted Z.lt (data ss').
Proof.
  revert ss. induction ops as [|o ops IH]; intros ss Hs Hops; simpl in *.
  - by exists ss.
  - apply andb_true_iff in Hops as [Ho Hops].
    destruct (apply_op_in_order o ss Hs Ho) as (r & Hr & Hs').
    rewrite Hr in Hops |- *. by apply IH.
Qed.

(** C1, as the code has it.  A set built by the constructor from a list
    without duplicates, on which [Insert], [Delete] and [Rename] are then
    called so that every value new to the set is above the elements
    present and no [Rename] goes from a present value to another present
    value, has strictly ascending data without duplicates after the
    calls, and none of the calls panics. *)
Theorem ordered_set_ascending (aList : list Z) (aSafe : bool) (ops : list op) :
  NoDup aList →
  ops_in_order ops (NewSlice aList aSafe) = true →
  ∃ ss, run ops (NewSlice aList aSafe) = Done ss ∧
        Sorted Z.lt (Data ss) ∧ NoDup (Data ss).
Proof.
  intros Hnd Hops.
  destruct (run_in_order ops (NewSlice aList aSafe)) as (ss & Hrun & Hs); [|done|].
  { simpl. apply slices_Sort_ascending. destruct (0 <? len aList); [done|constructor]. }
  exists ss. split; [done|]. unfold Data. simpl.
  split; [done|by apply ascending_NoDup].
Qed.

(** C1, as the code has it, on the run of [main.go]. *)
Lemma ordered_set_ascending_witness :
  NoDup [5; 3; 4; 1; 2] ∧
  ops_in_order [OpInsert 6; OpDelete 3; OpRename 4 7]
    (NewSlice [5; 3; 4; 1; 2] false) = true ∧
  ∃ ss, run [OpInsert 6; OpDelete 3; OpRename 4 7]
          (NewSlice [5; 3; 4; 1; 2] false) = Done ss ∧
        Sorted Z.lt (Data ss) ∧ NoDup (Data ss).
Proof.
  split; [|split].
  - by apply (bool_decide_unpack _).
  - reflexivity.
  - apply (ordered_set_ascending [5; 3; 4; 1; 2] false
             [OpInsert 6; OpDelete 3; OpRename 4 7]).
    + by apply (bool_decide_unpack _).
    + reflexivity.
Defined.

(** C1, as the claim states it, fails on a set built from a list with a
    duplicate: the constructor sorts and keeps both copies, and the three
    calls below leave the data as they are. *)
Lemma ordered_set_constructor_keeps_duplicates :
  ∃ ss, run [OpInsert 2; OpDelete 3; OpRename 1 1]
          (NewSlice [2; 1; 2] false) = Done ss ∧
        Data ss = [1; 2; 2] ∧
        ¬ (Sorted Z.lt (Data ss) ∧ NoDup (Data ss)).
Proof.
  eexists. split; [reflexivity|]. split; [reflexivity|].
  intros [_ Hnd]. simpl in Hnd.
  apply NoDup_cons in Hnd as [_ Hnd]. apply NoDup_cons in Hnd as [Hin _].
  apply Hin. by left.
Qed.

(** ** [Insert] and its callers on an ascending set *)

(** The half of C2 the code keeps: an element of the set is not inserted
    again. *)
Lemma Insert_present (x : Z) (ss : TSortedSlice) :
  Sorted Z.lt (data ss) → x ∈ data ss → Insert x ss = Done (false, ss).
Proof.
  intros Hs Hx. unfold Insert. rewrite (insert_ascending x ss Hs).
  apply member_elem_of in Hx. by rewrite Hx.
Qed.

(** What the code does with a value new to the set: it goes to the end of
    the slice, wherever the search has placed it. *)
Lemma Insert_absent_appends (x : Z) (ss : TSortedSlice) :
  Sorted Z.lt (data ss) → x ∉ data ss →
  Insert x ss = Done (true, set_data ss (data ss ++ [x])).
Proof.
  intros Hs Hx. unfold Insert. rewrite (insert_ascending x ss Hs).
  destruct (member x (data ss)) eqn:Hm; [|done].
  by apply member_elem_of in Hm.
Qed.

(** Below the largest element the append leaves the slice out of order,
    whatever the set. *)
Lemma Insert_absent_below_unsorted (x : Z) (ss : TSortedSlice) :
  Sorted Z.lt (data ss) → x ∉ data ss → ¬ Forall (λ y, y < x) (data ss) →
  ∃ ss', Insert x ss = Done (true, ss') ∧ Data ss' = data ss ++ [x] ∧
         ¬ Sorted Z.lt (Data ss').
Proof.
  intros Hs Hx Hbelow. rewrite (Insert_absent_appends x ss Hs Hx).
  eexists. split; [done|]. split; [done|]. unfold Data. simpl.
  rewrite ascending_strongly, StronglySorted_app. intros (Hlt & _ & _).
  apply Hbelow, Forall_forall. intros y Hy. apply Hlt; [done|by left].
Qed.

(** C2 at the set [NewSlice([1, 3])] and [Insert(2)]: the set is
    ascending and [2] is absent; the search gives the insertion point 1,
    and the call returns [true] and leaves [[1, 3, 2]], which is not
    ascending, where the claim has [[1, 2, 3]]. *)
Theorem Insert_absent_breaks_order :
  Data (NewSlice [1; 3] false) = [1; 3] ∧
  slices_BinarySearch [1; 3] 2 = (1, false) ∧
  Insert 2 (NewSlice [1; 3] false)
    = Done (true, {| data := [1; 3; 2]; safe := false |}) ∧
  ¬ Sorted Z.lt [1; 3; 2].
Proof.
  split_and!; [reflexivity..|]. by apply (bool_decide_unpack _).
Qed.

(** C3 at the set [NewSlice([1, 2, 3])] and [Rename(1, 3)]: both values
    are present and differ; the call returns [true] and leaves
    [[2, 3, 3]], in which [3] occurs twice. *)
Theorem Rename_onto_present_duplicates :
  Data (NewSlice [1; 2; 3] false) = [1; 2; 3] ∧
  Rename 1 3 (NewSlice [1; 2; 3] false)
    = Done (true, {| data := [2; 3; 3]; safe := false |}) ∧
  ¬ NoDup [2; 3; 3].
Proof.
  split_and!; [reflexivity..|]. by apply (bool_decide_unpack _).
Qed.

(** C4 at the set [NewSlice([1, 3])] and [x = 2]: [Insert(2)] leaves
    [[1, 3, 2]], on which the search of [Delete(2)] does not find [2];
    [Delete] returns [false] and the state before [Insert] is not
    restored. *)
Theorem Insert_Delete_not_restored :
  Data (NewSlice [1; 3] false) = [1; 3] ∧
  slices_BinarySearch [1; 3; 2] 2 = (1, false) ∧
  (r ← Insert 2 (NewSlice [1; 3] false); Delete 2 r.2)
    = Done (false, {| data := [1; 3; 2]; safe := false |}) ∧
  [1; 3; 2] ≠ [1; 3].
Proof. split_and!; [reflexivity..|done]. Qed.

(** C5 at the set [NewSlice([1, 3])] and [Insert(2)] twice: the first
    call leaves [[1, 3, 2]]; the second call does not find [2] either,
    returns [true] and leaves [[1, 3, 2, 2]]. *)
Theorem Insert_twice_not_idempotent :
  Insert 2 (NewSlice [1; 3] false)
    = Done (true, {| data := [1; 3; 2]; safe := false |}) ∧
  Insert 2 {| data := [1; 3; 2]; safe := false |}
    = Done (true, {| data := [1; 3; 2; 2]; safe := false |}) ∧
  [1; 3; 2; 2] ≠ [1; 3; 2].
Proof. split_and!; [reflexivity..|done]. Qed.

(** Where the value is above the whole set, the append is the ordered
    insertion and [Delete] undoes it. *)
Lemma Insert_Delete_above (x : Z) (ss : TSortedSlice) :
  Sorted Z.lt (data ss) → Forall (λ y, y < x) (data ss) →
  (r ← Insert x ss; Delete x r.2) = Done (true, ss).
Proof.
  intros Hs Habove.
  assert (Hx : x ∉ data ss).
  { intros Hx. rewrite Forall_forall in Habove. specialize (Habove _ Hx). lia. }
  rewrite (Insert_absent_appends x ss Hs Hx). cbn [mbind outcome_bind snd].
  pose proof (ascending_snoc _ x Hs Habove) as Hs'.
  unfold Delete. rewrite delete_unfold. cbn [data set_data].
  pose proof (BinarySearch_found (data ss ++ [x]) x) as Hfound.
  rewrite (BinarySearch_member _ x Hs') in *.
  assert (Hm : member x (data ss ++ [x]) = true).
  { apply member_elem_of, elem_of_app. right. by left. }
  rewrite Hm in *. destruct Hfound as [Hidx Hlook]; [done|].
  set (i := Z.to_nat (slices_BinarySearch (data ss ++ [x]) x).1) in *.
  assert (Hi : i = length (data ss)).
  { destruct (decide (i < length (data ss))%nat) as [Hlt|Hge].
    - rewrite lookup_app_l in Hlook by done.
      by apply list_elem_of_lookup_2 in Hlook.
    - apply lookup_lt_Some in Hlook. rewrite length_app in Hlook. simpl in *. lia. }
  cbn zeta. rewrite Hi, take_app_length, drop_ge by (rewrite length_app; simpl; lia).
  rewrite app_nil_r. by destruct ss.
Qed.

(** ** [Get] on the set *)

Lemma Get_beyond_length (aIndex : Z) (ss : TSortedSlice) :
  len (data ss) ≤ aIndex → Get aIndex ss = Done (0, false).
Proof.
  intros Hi. unfold Get. by rewrite (proj2 (Z.ltb_ge _ _)) by lia.
Qed.

Lemma Get_position (aIndex : Z) (x : Z) (ss : TSortedSlice) :
  0 ≤ aIndex → data ss !! Z.to_nat aIndex = Some x →
  Get aIndex ss = Done (x, true).
Proof.
  intros Hi Hx. unfold Get. apply lookup_lt_Some in Hx as Hlt.
  rewrite (proj2 (Z.ltb_lt _ _)) by (unfold len; lia).
  by rewrite (index_in_range _ _ _ Hi Hx).
Qed.

(** C9 at the empty set and [Get(-1)]: [-1 < len(ss.data)] holds, the
    element [ss.data[-1]] is read and the call panics, where the claim
    has it return [found = false]. *)
Theorem Get_empty_negative_panics :
  Get (-1) (NewSlice [] false) = Panic ∧
  Get (-1) (Clear (NewSlice [5; 3] true)) = Panic.
Proof. split; reflexivity. Qed.

(** C10: [Get] compares the index with the length only; a negative index
    passes the comparison and the read of [ss.data[aIndex]] panics. *)
Theorem Get_negative_index_panics (aIndex : Z) (ss : TSortedSlice) :
  data ss ≠ [] → aIndex < 0 → Get aIndex ss = Panic.
Proof.
  intros _ Hneg. unfold Get.
  pose proof (len_nonneg (data ss)).
  rewrite (proj2 (Z.ltb_lt _ _)) by lia.
  by rewrite index_negative.
Qed.

(** C10 on the set [[4, 8]] and [Get(-1)]. *)
Lemma Get_negative_index_panics_witness :
  data {| data := [4; 8]; safe := false |} ≠ [] ∧ -1 < 0 ∧
  Get (-1) {| data := [4; 8]; safe := false |} = Panic.
Proof.
  split; [discriminate|]. split; [lia|].
  apply (Get_negative_index_panics (-1) {| data := [4; 8]; safe := false |});
    [discriminate|lia].
Defined.

End SortedSliceFacts.

(** ** The methods of [TSortedMap] *)

Section SortedMapFacts.
Import SortedMap.
Context {V : Type} `{ZeroValue V}.
Implicit Types (sm : TSortedMap V) (m : gmap Z V) (ks : list Z).

Lemma drop_S_middle {A} (front back : list A) (x : A) :
  drop (S (length front)) (front ++ x :: back) = back.
Proof.
  rewrite cons_middle, app_assoc. apply drop_app_length'.
  rewrite length_app. simpl. lia.
Qed.

Lemma comma_ok_Some m (k : Z) (v : V) :
  m !! k = Some v → comma_ok m k = (v, true).
Proof. unfold comma_ok. by intros ->. Qed.

Lemma comma_ok_None m (k : Z) :
  m !! k = None → comma_ok m k = (zero_value, false).
Proof. unfold comma_ok. by intros ->. Qed.

Lemma comma_ok_found m (k : Z) : (comma_ok m k).2 = true ↔ is_Some (m !! k).
Proof.
  unfold comma_ok. destruct (m !! k) as [v|]; simpl.
  - split; [eauto|done].
  - split; [done|]. by intros [? ?].
Qed.

(** The [range] loop stops at the first occurrence of the key. *)
Lemma range_find_elem_of (aKey idx : Z) ks :
  aKey ∈ ks →
  ∃ front back, ks = front ++ aKey :: back ∧ (aKey ∉ front) ∧
                range_find aKey idx ks = Some (idx + len front).
Proof.
  revert idx. induction ks as [|key ks IH]; intros idx Hin.
  { by apply elem_of_nil in Hin. }
  simpl. destruct (Z.eqb_spec key aKey) as [->|Hne].
  - exists [], ks. split_and!; [done|apply not_elem_of_nil|f_equal; unfold len; simpl; lia].
  - apply elem_of_cons in Hin as [->|Hin]; [done|].
    destruct (IH (idx + 1) Hin) as (front & back & -> & Hfront & ->).
    exists (key :: front), back. split_and!; [done| |].
    + intros [->|?]%elem_of_cons; done.
    + f_equal. unfold len. simpl length. lia.
Qed.

Lemma range_find_not_elem_of (aKey idx : Z) ks :
  aKey ∉ ks → range_find aKey idx ks = None.
Proof.
  revert idx. induction ks as [|key ks IH]; intros idx Hin; [done|].
  simpl. apply not_elem_of_cons in Hin as [Hne Hin].
  destruct (Z.eqb_spec key aKey) as [->|_]; [done|]. by apply IH.
Qed.

Lemma keys_in_step_elem_of sm (k : Z) :
  keys_in_step sm → (k ∈ keys sm ↔ is_Some (data sm !! k)).
Proof.
  intros [_ Hdom]. by rewrite <- elem_of_dom, <- Hdom, elem_of_list_to_set.
Qed.

Lemma keys_in_step_NoDup sm : keys_in_step sm → NoDup (keys sm).
Proof. intros [Hs _]. by apply ascending_NoDup. Qed.

(** [insert] never panics and returns [true], on any state of the map. *)
Lemma insert_unfold_map (aKey : Z) (aValue : V) sm :
  insert aKey aValue sm =
    Done (true,
      {| data := <[aKey := aValue]> (data sm);
         keys :=
           match data sm !! aKey with
           | Some _ => keys sm
           | None =>
               let r := Z.to_nat (sort_Search (len (keys sm))
                                    (λ i, probe (keys sm) i >=? aKey)) in
               if decide (keys sm !! r = Some aKey) then keys sm
               else take r (keys sm) ++ aKey :: drop r (keys sm)
           end;
         safe := safe sm |}).
Proof.
  unfold insert, comma_ok. destruct (data sm !! aKey) as [v|]; [done|].
  cbn zeta.
  destruct (0 =? len (keys sm)) eqn:Hlen.
  { apply len_zero in Hlen. rewrite Hlen. reflexivity. }
  destruct (sort_Search_invariant (len (keys sm))
    (λ i, probe (keys sm) i >=? aKey) (len_nonneg _)) as (Hr & _ & _).
  set (r := sort_Search _ _) in *.
  destruct (Z.eqb_spec (len (keys sm)) r) as [Hend|Hin].
  - cbn [mbind outcome_bind]. unfold len in Hend.
    rewrite decide_False.
    2:{ intros Hl%lookup_lt_Some. lia. }
    rewrite take_ge, drop_ge by lia. done.
  - pose proof (probe_in_range (keys sm) r ltac:(lia)) as Hp.
    rewrite (index_in_range _ _ _ (proj1 Hr) Hp). cbn [mbind outcome_bind].
    destruct (Z.eqb_spec (probe (keys sm) r) aKey) as [Heq|Hne]; cbn [negb].
    + rewrite decide_True by congruence. done.
    + rewrite decide_False by congruence.
      rewrite shift_insert by lia. done.
Qed.

Lemma insert_in_step (aKey : Z) (aValue : V) sm :
  keys_in_step sm → data sm !! aKey = None →
  ∃ front back,
    keys sm = front ++ back ∧
    Forall (λ k, k < aKey) front ∧ Forall (λ k, aKey < k) back ∧
    insert aKey aValue sm =
      Done (true, {| data := <[aKey := aValue]> (data sm);
                     keys := front ++ aKey :: back; safe := safe sm |}).
Proof.
  intros Hinv Hk. rewrite insert_unfold_map, Hk. cbn zeta.
  assert (Hnotin : aKey ∉ keys sm).
  { rewrite (keys_in_step_elem_of _ _ Hinv), Hk. by intros [? ?]. }
  destruct Hinv as [Hs _].
  destruct (sort_Search_lower_bound (keys sm) aKey
    (λ i, probe (keys sm) i >=? aKey) Hs) as (Hr & Hbelow & Habove).
  { intros h. rewrite Z.geb_leb. apply Z.leb_antisym. }
  set (r := Z.to_nat (sort_Search _ _)) in *.
  rewrite decide_False by (by intros ?%list_elem_of_lookup_2).
  exists (take r (keys sm)), (drop r (keys sm)).
  split_and!; [by rewrite take_drop|done| |done].
  rewrite Forall_forall in *. intros k Hin. specialize (Habove k Hin).
  assert (k ≠ aKey); [|lia].
  intros ->. apply Hnotin. rewrite <- (take_drop r (keys sm)).
  apply elem_of_app. by right.
Qed.

Lemma insert_keeps_step (aKey : Z) (aValue : V) sm :
  keys_in_step sm →
  ∃ sm', insert aKey aValue sm = Done (true, sm') ∧ keys_in_step sm'.
Proof.
  intros Hinv. destruct (data sm !! aKey) as [v|] eqn:Hk.
  - rewrite insert_unfold_map, Hk. eexists. split; [done|].
    destruct Hinv as [Hs Hdom]. split; simpl; [done|].
    rewrite dom_insert_L, <- Hdom.
    assert (Hin : aKey ∈ dom (data sm)) by (apply elem_of_dom; eauto).
    rewrite <- Hdom in Hin. unfold_elem_of.
    split; [tauto|]. by intros [->|?].
  - destruct (insert_in_step aKey aValue sm Hinv Hk)
      as (front & back & Hkeys & Hfront & Hback & ->).
    eexists. split; [done|]. destruct Hinv as [Hs Hdom]. split; simpl.
    + apply ascending_insert; [by rewrite <- Hkeys|done..].
    + rewrite dom_insert_L, <- Hdom, Hkeys, !list_to_set_app_L, list_to_set_cons.
      unfold_elem_of. tauto.
Qed.

(** [delete] on a map whose keys are in step. *)
Lemma delete_in_step (aKey : Z) sm :
  keys_in_step sm →
  ∃ r, delete aKey sm = Done r ∧ keys_in_step r.2 ∧
       r.1 = bool_decide (is_Some (data sm !! aKey)) ∧
       data r.2 = base.delete aKey (data sm).
Proof.
  intros Hinv. unfold delete, comma_ok.
  destruct (data sm !! aKey) as [v|] eqn:Hk; cbn [snd].
  - assert (Hin : aKey ∈ keys sm).
    { rewrite (keys_in_step_elem_of _ _ Hinv), Hk. eauto. }
    destruct (range_find_elem_of aKey 0 _ Hin)
      as (front & back & Hkeys & Hfront & ->).
    pose proof (keys_in_step_NoDup _ Hinv) as Hnd.
    destruct Hinv as [Hs Hdom]. rewrite Hkeys in Hs, Hdom, Hnd |- *.
    rewrite slice_hi_in_range, slice_lo_in_range
      by (rewrite len_app; unfold len; simpl length; lia).
    cbn [mbind outcome_bind].
    replace (Z.to_nat (0 + len front)) with (length front) by (unfold len; lia).
    replace (Z.to_nat (0 + len front + 1)) with (S (length front))
      by (unfold len; lia).
    rewrite take_app_length, drop_S_middle.
    eexists. split; [done|]. simpl.
    split_and!; [split; simpl| |done].
    + apply (ascending_remove _ (length front)) in Hs.
      by rewrite take_app_length, drop_S_middle in Hs.
    + apply NoDup_app in Hnd as (_ & _ & [Hback _]%NoDup_cons).
      rewrite dom_delete_L, <- Hdom, !list_to_set_app_L, list_to_set_cons.
      assert (aKey ∉ (list_to_set front : gset Z)) by by rewrite elem_of_list_to_set.
      assert (aKey ∉ (list_to_set back : gset Z)) by by rewrite elem_of_list_to_set.
      unfold_elem_of. split.
      * intros [?|?]; (split; [tauto|by intros ->]).
      * intros [[?|[?|?]] ?]; tauto.
    + done.
  - exists (false, sm). split; [done|]. simpl. split_and!; [done| |].
    + done.
    + by rewrite delete_id.
Qed.

(** [rename] returns [false] and changes nothing when the new key is
    present, the old key is absent or the keys are equal; on any state. *)
Lemma rename_refused (aOldKey aNewKey : Z) sm :
  is_Some (data sm !! aNewKey) ∨ data sm !! aOldKey = None ∨ aOldKey = aNewKey →
  rename aOldKey aNewKey sm = Done (false, sm).
Proof.
  intros Hcase. unfold rename, comma_ok.
  destruct (data sm !! aNewKey) as [w|] eqn:Hnew; [done|]. cbn [snd].
  destruct (data sm !! aOldKey) as [v|] eqn:Hold; [|done]. cbn [negb orb].
  destruct (Z.eqb_spec aOldKey aNewKey) as [Heq|Hne]; [done|].
  destruct Hcase as [[? ?]|[?|?]]; done.
Qed.

(** [rename] of a present key to an absent one, keys in step. *)
Lemma rename_in_step (aOldKey aNewKey : Z) (v : V) sm :
  keys_in_step sm →
  data sm !! aNewKey = None → data sm !! aOldKey = Some v →
  ∃ front back,
    keys sm = front ++ aOldKey :: back ∧ (aOldKey ∉ front ++ back) ∧
    rename aOldKey aNewKey sm =
      Done (true,
        {| data := <[aNewKey := v]> (base.delete aOldKey (data sm));
           keys := slices_Sort (front ++ aNewKey :: back);
           safe := safe sm |}).
Proof.
  intros Hinv Hnew Hold. unfold rename, comma_ok. rewrite Hnew, Hold. cbn [snd negb orb].
  assert (Hne : aOldKey ≠ aNewKey) by congruence.
  rewrite (proj2 (Z.eqb_neq _ _) Hne).
  assert (Hin : aOldKey ∈ keys sm).
  { rewrite (keys_in_step_elem_of _ _ Hinv), Hold. eauto. }
  destruct (range_find_elem_of aOldKey 0 _ Hin)
    as (front & back & Hkeys & Hfront & ->).
  pose proof (keys_in_step_NoDup _ Hinv) as Hnd. rewrite Hkeys in Hnd |- *.
  exists front, back. split; [done|]. split.
  { apply NoDup_app in Hnd as (_ & _ & [Hback _]%NoDup_cons).
    by intros [?|?]%elem_of_app. }
  rewrite assign_in_range by (rewrite len_app; unfold len; simpl length; lia).
  cbn [mbind outcome_bind].
  replace (Z.to_nat (0 + len front)) with (length front) by (unfold len; lia).
  rewrite insert_app_r_alt, Nat.sub_diag by done. done.
Qed.

Lemma rename_keeps_step (aOldKey aNewKey : Z) sm :
  keys_in_step sm →
  ∃ r, rename aOldKey aNewKey sm = Done r ∧ keys_in_step r.2.
Proof.
  intros Hinv.
  destruct (data sm !! aNewKey) as [w|] eqn:Hnew.
  { rewrite rename_refused by eauto. by eexists. }
  destruct (data sm !! aOldKey) as [v|] eqn:Hold.
  2:{ rewrite rename_refused by eauto. by eexists. }
  destruct (rename_in_step _ _ v sm Hinv Hnew Hold)
    as (front & back & Hkeys & Hout & ->).
  eexists. split; [done|]. simpl.
  assert (Hnotin : aNewKey ∉ keys sm).
  { rewrite (keys_in_step_elem_of _ _ Hinv), Hnew. by intros [? ?]. }
  pose proof (keys_in_step_NoDup _ Hinv) as Hnd.
  destruct Hinv as [Hs Hdom]. rewrite Hkeys in Hnotin, Hnd, Hdom.
  split; simpl.
  - apply slices_Sort_ascending.
    apply NoDup_app in Hnd as (Hf & Hfb & [_ Hb]%NoDup_cons).
    apply NoDup_app. split_and!; [done| |].
    + intros k Hk [->|Hk']%elem_of_cons.
      * apply Hnotin, elem_of_app. by left.
      * apply (Hfb k Hk). by right.
    + apply NoDup_cons. split; [|done].
      intros Hk. apply Hnotin, elem_of_app. right. by right.
  - rewrite dom_insert_L, dom_delete_L, <- Hdom.
    assert (list_to_set (slices_Sort (front ++ aNewKey :: back))
            =@{gset Z} list_to_set (front ++ aNewKey :: back)) as ->.
    { apply set_eq. intros k. rewrite !elem_of_list_to_set.
      by rewrite slices_Sort_Permutation. }
    rewrite !list_to_set_app_L, !list_to_set_cons.
    assert (aOldKey ∉ (list_to_set front : gset Z)).
    { rewrite elem_of_list_to_set. intros ?. apply Hout, elem_of_app. by left. }
    assert (aOldKey ∉ (list_to_set back : gset Z)).
    { rewrite elem_of_list_to_set. intros ?. apply Hout, elem_of_app. by right. }
    unfold_elem_of. split.
    + intros [?|[?|?]]; [right|by left|right]; (split; [tauto|by intros ->]).
    + intros [?|[[?|[?|?]] ?]]; tauto.
Qed.

Lemma NewSortedMap_in_step (aSafe : bool) :
  keys_in_step (NewSortedMap (V:=V) aSafe).
Proof. split; simpl; [constructor|]. by rewrite dom_empty_L. Qed.

Lemma apply_op_keeps_step (o : op V) sm :
  keys_in_step sm → ∃ sm', apply_op o sm = Done sm' ∧ keys_in_step sm'.
Proof.
  intros Hinv. destruct o as [k v|k|k k'|]; simpl.
  - destruct (insert_keeps_step k v sm Hinv) as (sm' & Hr & Hinv').
    unfold Insert. rewrite Hr. by exists sm'.
  - destruct (delete_in_step k sm Hinv) as (r & Hr & Hinv' & _).
    unfold Delete. rewrite Hr. by exists r.2.
  - destruct (rename_keeps_step k k' sm Hinv) as (r & Hr & Hinv').
    unfold Rename. rewrite Hr. by exists r.2.
  - eexists. split; [done|]. apply (NewSortedMap_in_step (safe sm)).
Qed.

Lemma run_keeps_step (ops : list (op V)) sm :
  keys_in_step sm → ∃ sm', run ops sm = Done sm' ∧ keys_in_step sm'.
Proof.
  revert sm. induction ops as [|o ops IH]; intros sm Hinv; simpl.
  - by exists sm.
  - destruct (apply_op_keeps_step o sm Hinv) as (sm' & -> & Hinv').
    by apply IH.
Qed.

(** ** The map and its key slice *)

(** C6: whatever [Insert], [Delete], [Rename] and [Clear] calls are made
    on a new map, none panics, and [Keys()] is then strictly ascending,
    without duplicates, and holds the keys of the map and no other. *)
Theorem Keys_sorted_key_set (aSafe : bool) (ops : list (op V)) :
  ∃ sm, run ops (NewSortedMap aSafe) = Done sm ∧
        Sorted Z.lt (Keys sm) ∧ NoDup (Keys sm) ∧
        ∀ k : Z, k ∈ Keys sm ↔ is_Some (data sm !! k).
Proof.
  destruct (run_keeps_step ops _ (NewSortedMap_in_step aSafe))
    as (sm & Hrun & Hinv).
  exists sm. unfold Keys. simpl.
  split_and!; [done|apply Hinv|by apply keys_in_step_NoDup|].
  intros k. by apply keys_in_step_elem_of.
Qed.

(** C7: [Rename] returns [false] and leaves the map as it is when the new
    key is present, the old key is absent or the two keys are equal;
    otherwise it returns [true], the value of the old key is under the
    new key, the old key is gone from the map and from the keys, and the
    keys are those left with the new key at its place in the order. *)
Theorem Rename_moves_key (aOldKey aNewKey : Z) sm :
  keys_in_step sm →
  (is_Some (data sm !! aNewKey) ∨ data sm !! aOldKey = None
     ∨ aOldKey = aNewKey →
   Rename aOldKey aNewKey sm = Done (false, sm)) ∧
  (∀ v : V,
     data sm !! aNewKey = None → data sm !! aOldKey = Some v →
     aOldKey ≠ aNewKey →
     ∃ sm', Rename aOldKey aNewKey sm = Done (true, sm') ∧
            data sm' = <[aNewKey := v]> (base.delete aOldKey (data sm)) ∧
            Get aNewKey sm' = (v, true) ∧
            Get aOldKey sm' = (zero_value, false) ∧
            Sorted Z.lt (Keys sm') ∧
            ∀ k : Z, k ∈ Keys sm' ↔
                     k = aNewKey ∨ (k ∈ Keys sm ∧ k ≠ aOldKey)).
Proof.
  intros Hinv. split; [apply rename_refused|].
  intros v Hnew Hold Hne.
  destruct (rename_keeps_step aOldKey aNewKey sm Hinv) as (r & Hr & Hinv').
  destruct (rename_in_step _ _ v sm Hinv Hnew Hold)
    as (front & back & Hkeys & Hout & Hrename).
  unfold Rename. rewrite Hrename in Hr |- *. injection Hr as <-.
  eexists. split; [done|]. unfold Get, Keys. simpl in *.
  split_and!; [done| | |apply Hinv'|].
  - apply comma_ok_Some, lookup_insert_eq.
  - apply comma_ok_None. rewrite lookup_insert_ne by done. apply lookup_delete_eq.
  - intros k. rewrite slices_Sort_Permutation, Hkeys.
    rewrite !elem_of_app, !elem_of_cons.
    rewrite elem_of_app in Hout. split.
    + intros [Hk|[->|Hk]]; [right|by left|right];
        (split; [tauto|intros ->; tauto]).
    + intros [->|[[Hk|[->|Hk]] Hk']]; tauto.
Qed.

(** C8: [Insert] returns [true] on any state of the map and puts the
    value under the key; the keys are unchanged when the key is present,
    and when it is absent from a map whose keys are in step, the key is
    added between the keys below it and the keys above it. *)
Theorem Insert_overwrites_or_adds (aKey : Z) (aValue : V) sm :
  ∃ sm', Insert aKey aValue sm = Done (true, sm') ∧
         data sm' = <[aKey := aValue]> (data sm) ∧
         (is_Some (data sm !! aKey) → Keys sm' = Keys sm) ∧
         (keys_in_step sm → data sm !! aKey = None →
          ∃ front back,
            Keys sm = front ++ back ∧ Keys sm' = front ++ aKey :: back ∧
            Forall (λ k, k < aKey) front ∧ Forall (λ k, aKey < k) back ∧
            Sorted Z.lt (Keys sm')).
Proof.
  unfold Insert, Keys. eexists. split; [apply insert_unfold_map|]. simpl.
  split_and!; [done| |].
  - by intros [v ->].
  - intros Hinv Hk.
    destruct (insert_in_step aKey aValue sm Hinv Hk)
      as (front & back & Hkeys & Hfront & Hback & Hins).
    rewrite insert_unfold_map in Hins. injection Hins as Hins.
    exists front, back. rewrite Hins.
    split_and!; [done..|].
    apply ascending_insert; [|done..]. rewrite <- Hkeys. apply Hinv.
Qed.


(** The map half of C9: [Get] finds nothing in a map without entries. *)
Lemma Get_empty_map (aKey : Z) (aSafe : bool) sm :
  Get aKey (NewSortedMap (V:=V) aSafe) = (zero_value, false) ∧
  Get aKey (Clear sm) = (zero_value, false).
Proof. split; apply comma_ok_None, lookup_empty. Qed.

End SortedMapFacts.

(** The scenarios of the map, keys and values being integers: three
    insertions out of order, then a rename of the least key to a key above
    the others. *)
Example map_scenarios :
  SortedMap.Keys <$>
    SortedMap.run
      [SortedMap.OpInsert 2 20; SortedMap.OpInsert 1 10;
       SortedMap.OpInsert 3 30]
      (SortedMap.NewSortedMap false)
    = Done [1; 2; 3] ∧
  (λ sm, (SortedMap.Keys sm, SortedMap.Get 26 sm, SortedMap.Get 1 sm)) <$>
    SortedMap.run
      [SortedMap.OpInsert 2 20; SortedMap.OpInsert 1 10;
       SortedMap.OpInsert 3 30; SortedMap.OpRename 1 26]
      (SortedMap.NewSortedMap false)
    = Done ([2; 3; 26], (10, true), (0, false)).
Proof. split; reflexivity. Qed.

(** C7 on the map [{1: 10, 5: 50}] and [Rename(1, 7)]. *)
Lemma Rename_moves_key_witness :
  SortedMap.keys_in_step
    {| SortedMap.data := {[ 1 := 10; 5 := 50 ]};
       SortedMap.keys := [1; 5]; SortedMap.safe := false |} ∧
  ∃ sm', SortedMap.Rename 1 7
           {| SortedMap.data := {[ 1 := 10; 5 := 50 ]};
              SortedMap.keys := [1; 5]; SortedMap.safe := false |}
           = Done (true, sm') ∧
         SortedMap.Get 7 sm' = (10, true) ∧
         SortedMap.Get 1 sm' = (0, false) ∧
         SortedMap.Keys sm' = [5; 7].
Proof.
  assert (Hinv : SortedMap.keys_in_step
    {| SortedMap.data := ({[ 1 := 10; 5 := 50 ]} : gmap Z Z);
       SortedMap.keys := [1; 5]; SortedMap.safe := false |}).
  { split; by apply (bool_decide_unpack _). }
  split; [exact Hinv|].
  destruct (Rename_moves_key 1 7 _ Hinv) as [_ Hmove].
  destruct (Hmove 10) as (sm' & Hr & _ & Hnew & Hold & _);
    [reflexivity|reflexivity|lia|].
  exists sm'. split_and!; [exact Hr|exact Hnew|exact Hold|].
  unfold SortedMap.Rename in Hr. vm_compute in Hr. by injection Hr as <-.
Defined.

(** C8 on the map [{1: 10, 5: 50}] and [Insert(3, 30)]. *)
Lemma Insert_overwrites_or_adds_witness :
  ∃ sm', SortedMap.Insert 3 30
           {| SortedMap.data := {[ 1 := 10; 5 := 50 ]};
              SortedMap.keys := [1; 5]; SortedMap.safe := false |}
           = Done (true, sm') ∧
         SortedMap.Keys sm' = [1; 3; 5].
Proof.
  destruct (Insert_overwrites_or_adds 3 30
    {| SortedMap.data := ({[ 1 := 10; 5 := 50 ]} : gmap Z Z);
       SortedMap.keys := [1; 5]; SortedMap.safe := false |})
    as (sm' & Hr & _).
  exists sm'. split; [done|].
  unfold SortedMap.Insert in Hr. vm_compute in Hr. by injection Hr as <-.
Defined.

(** * Further properties of [TSortedSlice] *)

Section SortedSliceMore.
Import SortedSlice.

(** ** Sorted slices that may hold duplicates *)

Lemma sorted_lookup (s : list Z) (a b : nat) (x y : Z) :
  StronglySorted Z.le s → (a ≤ b)%nat →
  s !! a = Some x → s !! b = Some y → x ≤ y.
Proof.
  intros Hs. revert a b. induction Hs as [|z s Hs IH Hz]; intros a b Hab Ha Hb.
  - by rewrite lookup_nil in Ha.
  - destruct a as [|a], b as [|b]; simpl in *; try lia.
    + assert (x = y) by congruence. lia.
    + injection Ha as ->. rewrite Forall_forall in Hz.
      apply Hz. by eapply list_elem_of_lookup_2.
    + apply (IH a b); [lia|done..].
Qed.

(** The position the search returns on a sorted slice, duplicates or
    not: the elements before it are below the target, the others are
    not. *)
Lemma sort_Search_lower_bound_sorted (x : list Z) (t : Z) (f : Z → bool) :
  Sorted Z.le x →
  (∀ h, f h = negb (probe x h <? t)) →
  let r := sort_Search (len x) f in
  0 ≤ r ≤ len x ∧
  Forall (λ y, y < t) (take (Z.to_nat r) x) ∧
  Forall (λ y, t ≤ y) (drop (Z.to_nat r) x).
Proof.
  intros Hs%(Sorted_StronglySorted _) Hf.
  destruct (sort_Search_invariant (len x) f (len_nonneg x))
    as (Hr & Hbelow & Habove).
  simpl. set (r := sort_Search (len x) f) in *. unfold len in *.
  split_and!; [lia..| |].
  - apply Forall_lookup_2. intros a y Hy.
    apply lookup_lt_Some in Hy as Ha. rewrite length_take in Ha.
    rewrite lookup_take_lt in Hy by lia.
    specialize (Hbelow ltac:(lia)).
    rewrite Hf in Hbelow. apply negb_false_iff, Z.ltb_lt in Hbelow.
    pose proof (probe_in_range x (r - 1) ltac:(unfold len; lia)) as Hp.
    pose proof (sorted_lookup x a (Z.to_nat (r - 1)) y _ Hs ltac:(lia) Hy Hp).
    lia.
  - apply Forall_lookup_2. intros a y Hy. rewrite lookup_drop in Hy.
    apply lookup_lt_Some in Hy as Ha.
    specialize (Habove ltac:(lia)).
    rewrite Hf in Habove. apply negb_true_iff, Z.ltb_ge in Habove.
    pose proof (probe_in_range x r ltac:(unfold len; lia)) as Hp.
    pose proof (sorted_lookup x (Z.to_nat r) (Z.to_nat r + a) _ y Hs
      ltac:(lia) Hp Hy).
    lia.
Qed.

Lemma BinarySearch_sorted (x : list Z) (target : Z) :
  Sorted Z.le x →
  Forall (λ y, y < target)
    (take (Z.to_nat (slices_BinarySearch x target).1) x) ∧
  ((slices_BinarySearch x target).2 = true ↔ target ∈ x).
Proof.
  intros Hs.
  destruct (sort_Search_lower_bound_sorted x target _ Hs (λ h, eq_refl))
    as (Hr & Hbelow & Habove).
  split; [done|]. split.
  - intros [_ Hx]%BinarySearch_found. by eapply list_elem_of_lookup_2.
  - intros Hin. unfold slices_BinarySearch. simpl.
    set (r := sort_Search _ _) in *.
    rewrite <- (take_drop (Z.to_nat r) x) in Hin.
    apply elem_of_app in Hin as [Hin|Hin].
    { rewrite Forall_forall in Hbelow. specialize (Hbelow _ Hin). lia. }
    destruct (drop (Z.to_nat r) x) as [|y back] eqn:Hd;
      [by apply elem_of_nil in Hin|].
    assert (Hy : x !! Z.to_nat r = Some y).
    { rewrite <- (Nat.add_0_r (Z.to_nat r)), <- lookup_drop. by rewrite Hd. }
    apply lookup_lt_Some in Hy as Hlt. unfold len in *.
    apply andb_true_iff. split; [apply Z.ltb_lt; lia|].
    rewrite (probe_lookup _ _ _ Hy). apply Z.eqb_eq.
    apply Forall_cons in Habove as [Hle _].
    apply elem_of_cons in Hin as [->|Hin]; [done|].
    apply (Sorted_StronglySorted _) in Hs.
    rewrite <- (take_drop (Z.to_nat r) x), Hd in Hs.
    apply StronglySorted_app in Hs as (_ & _ & Hs).
    apply StronglySorted_inv in Hs as [_ Hs].
    rewrite Forall_forall in Hs. specialize (Hs _ Hin). lia.
Qed.

Lemma ascending_sorted (s : list Z) : Sorted Z.lt s → Sorted Z.le s.
Proof.
  induction 1 as [|x s Hs IH Hx]; constructor; [done|].
  destruct Hx; constructor. lia.
Qed.

(** ** The constructor *)

(** [NewSlice] holds the elements of its argument, as often as the
    argument has them, in ascending order. *)
Theorem NewSlice_sorted_permutation (aList : list Z) (aSafe : bool) :
  Sorted Z.le (Data (NewSlice aList aSafe)) ∧
  Data (NewSlice aList aSafe) ≡ₚ aList.
Proof.
  unfold Data, NewSlice. simpl. split; [apply slices_Sort_Sorted|].
  rewrite slices_Sort_Permutation.
  destruct aList; [done|]. unfold len. simpl length.
  by rewrite (proj2 (Z.ltb_lt 0 _)) by lia.
Qed.

(** ** [FindIndex] *)

(** On any slice, sorted or not, [FindIndex] does not panic, and an
    index it returns is [-1] or a position that holds the element. *)
Theorem FindIndex_sound (aElement : Z) (ss : TSortedSlice) :
  ∃ i, FindIndex aElement ss = Done i ∧
       (i = -1 ∨ (0 ≤ i < len (data ss) ∧
                  data ss !! Z.to_nat i = Some aElement)).
Proof.
  unfold FindIndex. rewrite findIndex_unfold. eexists. split; [done|].
  pose proof (BinarySearch_found (data ss) aElement) as Hfound.
  destruct (slices_BinarySearch (data ss) aElement).2; [right|left]; auto.
Qed.

Lemma findIndex_first_occurrence (aElement : Z) (ss : TSortedSlice) :
  Sorted Z.le (data ss) →
  ∃ i, findIndex aElement ss = Done i ∧
       (aElement ∉ data ss → i = -1) ∧
       (aElement ∈ data ss →
        0 ≤ i ∧ data ss !! Z.to_nat i = Some aElement ∧
        Forall (λ y, y < aElement) (take (Z.to_nat i) (data ss))).
Proof.
  intros Hs. rewrite findIndex_unfold.
  destruct (BinarySearch_sorted (data ss) aElement Hs) as [Hbelow Hmem].
  pose proof (BinarySearch_found (data ss) aElement) as Hfound.
  eexists. split; [done|].
  destruct (slices_BinarySearch (data ss) aElement).2.
  - destruct Hfound as [Hi Hx]; [done|]. split.
    + intros Hx'. destruct Hx'. by apply Hmem.
    + intros _. split_and!; [lia|done..].
  - split; [done|]. intros Hx. by apply Hmem in Hx.
Qed.

(** On a sorted slice [FindIndex] returns [-1] for an element that is
    absent, and for an element that is present the position of its first
    occurrence. *)
Theorem FindIndex_sorted (aElement : Z) (ss : TSortedSlice) :
  Sorted Z.le (data ss) →
  ∃ i, FindIndex aElement ss = Done i ∧
       (aElement ∉ data ss → i = -1) ∧
       (aElement ∈ data ss →
        0 ≤ i ∧ data ss !! Z.to_nat i = Some aElement ∧
        Forall (λ y, y < aElement) (take (Z.to_nat i) (data ss))).
Proof. apply findIndex_first_occurrence. Qed.

(** [FindIndex(4)] on [NewSlice([4, 2, 4, 9])]: the first of the two
    copies. *)
Lemma FindIndex_sorted_witness :
  Sorted Z.le (data (NewSlice [4; 2; 4; 9] false)) ∧
  ∃ i, FindIndex 4 (NewSlice [4; 2; 4; 9] false) = Done i ∧ i = 1.
Proof.
  assert (Hs : Sorted Z.le (data (NewSlice [4; 2; 4; 9] false))).
  { by apply (bool_decide_unpack _). }
  split; [exact Hs|].
  destruct (FindIndex_sorted 4 (NewSlice [4; 2; 4; 9] false) Hs)
    as (i & Hi & _).
  exists i. split; [exact Hi|].
  vm_compute in Hi. by injection Hi as <-.
Defined.

(** On a strictly ascending set [FindIndex] and [Get] are inverse to each
    other: [Get(i)] gives [x] at a position [i >= 0] exactly when
    [FindIndex(x)] gives [i]. *)
Theorem FindIndex_Get_inverse (x i : Z) (ss : TSortedSlice) :
  Sorted Z.lt (data ss) → 0 ≤ i →
  Get i ss = Done (x, true) ↔ FindIndex x ss = Done i.
Proof.
  intros Hs Hi.
  destruct (findIndex_first_occurrence x ss (ascending_sorted _ Hs))
    as (j & Hj & Habsent & Hpresent).
  unfold FindIndex. split.
  - intros Hget. unfold Get in Hget.
    destruct (Z.ltb_spec i (len (data ss))) as [Hlt|Hge]; [|done].
    pose proof (probe_in_range (data ss) i ltac:(lia)) as Hp.
    rewrite (index_in_range _ _ _ Hi Hp) in Hget.
    injection Hget as Hx. rewrite Hx in Hp.
    destruct Hpresent as (Hj0 & Hjx & _); [by eapply list_elem_of_lookup_2|].
    pose proof (NoDup_lookup _ _ _ _ (ascending_NoDup _ Hs) Hp Hjx).
    rewrite Hj. f_equal. lia.
  - intros Hfind. rewrite Hfind in Hj. injection Hj as <-.
    destruct (decide (x ∈ data ss)) as [Hin|Hout].
    + destruct (Hpresent Hin) as (_ & Hx & _). by apply Get_position.
    + specialize (Habsent Hout). lia.
Qed.

(** [Get(1)] and [FindIndex(5)] on [NewSlice([7, 3, 5])]. *)
Lemma FindIndex_Get_inverse_witness :
  Sorted Z.lt (data (NewSlice [7; 3; 5] false)) ∧ 0 ≤ 1 ∧
  (Get 1 (NewSlice [7; 3; 5] false) = Done (5, true) ↔
   FindIndex 5 (NewSlice [7; 3; 5] false) = Done 1).
Proof.
  assert (Hs : Sorted Z.lt (data (NewSlice [7; 3; 5] false))).
  { by apply (bool_decide_unpack _). }
  split; [exact Hs|]. split; [lia|].
  apply (FindIndex_Get_inverse 5 1 (NewSlice [7; 3; 5] false) Hs). lia.
Defined.

(** ** [Get] and [Clear] *)

(** [Get] at an index that is not negative does not panic: it finds the
    element at a position of the slice and nothing from the length on. *)
Theorem Get_nonnegative_index (aIndex : Z) (ss : TSortedSlice) :
  0 ≤ aIndex →
  Get aIndex ss =
    Done (match data ss !! Z.to_nat aIndex with
          | Some x => (x, true)
          | None => (0, false)
          end).
Proof.
  intros Hi. destruct (data ss !! Z.to_nat aIndex) as [x|] eqn:Hx.
  - by apply Get_position.
  - apply Get_beyond_length. apply lookup_ge_None in Hx. unfold len. lia.
Qed.

(** [Get(2)] and [Get(3)] on [NewSlice([7, 3, 5])]. *)
Lemma Get_nonnegative_index_witness :
  0 ≤ 2 ∧
  Get 2 (NewSlice [7; 3; 5] false) = Done (7, true) ∧
  Get 3 (NewSlice [7; 3; 5] false) = Done (0, false).
Proof.
  split; [lia|]. split.
  - apply (Get_nonnegative_index 2 (NewSlice [7; 3; 5] false)). lia.
  - apply (Get_nonnegative_index 3 (NewSlice [7; 3; 5] false)). lia.
Defined.

(** After [Clear] the set is empty whatever it held: [Data] is empty,
    [FindIndex] and [Get] find nothing, [Delete] refuses, and [Insert]
    makes a set of one element; the [safe] flag is kept. *)
Theorem Clear_empties (x aIndex : Z) (ss : TSortedSlice) :
  0 ≤ aIndex →
  Data (Clear ss) = [] ∧ safe (Clear ss) = safe ss ∧
  FindIndex x (Clear ss) = Done (-1) ∧
  Get aIndex (Clear ss) = Done (0, false) ∧
  Delete x (Clear ss) = Done (false, Clear ss) ∧
  Data <$> (r ← Insert x (Clear ss); Done r.2) = Done [x].
Proof.
  intros Hi. split_and!; try reflexivity.
  apply Get_beyond_length. simpl. unfold len. simpl. lia.
Qed.

(** [Clear] on [NewSlice([7, 3, 5])]. *)
Lemma Clear_empties_witness :
  0 ≤ 0 ∧ Data (Clear (NewSlice [7; 3; 5] true)) = [] ∧
  Get 0 (Clear (NewSlice [7; 3; 5] true)) = Done (0, false).
Proof.
  split; [lia|].
  destruct (Clear_empties 7 0 (NewSlice [7; 3; 5] true))
    as (Hd & _ & _ & Hg & _); [lia|].
  split; [exact Hd|exact Hg].
Defined.

(** ** [Delete] *)

(** On any slice, sorted or not, [Delete] does not panic; it returns
    [false] and changes nothing, or returns [true] and takes one
    occurrence of the element out, the other elements keeping their
    order. *)
Theorem Delete_removes_one_occurrence (x : Z) (ss : TSortedSlice) :
  ∃ r, Delete x ss = Done r ∧
       (r.1 = false → r.2 = ss) ∧
       (r.1 = true →
        ∃ front back, data ss = front ++ x :: back ∧
                      data r.2 = front ++ back ∧ safe r.2 = safe ss).
Proof.
  unfold Delete. rewrite delete_unfold.
  pose proof (BinarySearch_found (data ss) x) as Hfound.
  destruct (slices_BinarySearch (data ss) x).2.
  - destruct Hfound as [_ Hx]; [done|].
    eexists. split; [done|]. simpl. split; [done|]. intros _.
    eexists _, _. split; [|done].
    symmetry. by apply take_drop_middle.
  - eexists. split; [done|]. simpl. by split.
Qed.

(** On a strictly ascending set [Delete] returns [true] exactly for an
    element of the set; the set is then strictly ascending and holds the
    other elements and no more; an absent element leaves the set as it
    is. *)
Theorem Delete_ascending (x : Z) (ss : TSortedSlice) :
  Sorted Z.lt (data ss) →
  ∃ ss', Delete x ss = Done (bool_decide (x ∈ data ss), ss') ∧
         Sorted Z.lt (Data ss') ∧
         (∀ y, y ∈ Data ss' ↔ y ∈ data ss ∧ y ≠ x) ∧
         (x ∉ data ss → ss' = ss).
Proof.
  intros Hs. destruct (delete_ascending x ss Hs) as ([b ss'] & Hr & Hs' & Hb & Hin).
  simpl in *. exists ss'. unfold Delete, Data. simpl.
  assert (Hbx : b = bool_decide (x ∈ data ss)).
  { rewrite Hb. destruct (member x (data ss)) eqn:Hm.
    - symmetry. by apply bool_decide_eq_true, member_elem_of.
    - symmetry. apply bool_decide_eq_false. rewrite <- member_elem_of. congruence. }
  split_and!; [by rewrite Hr, Hbx|done..|].
  intros Hout. rewrite delete_unfold, (BinarySearch_member _ _ Hs) in Hr.
  destruct (member x (data ss)) eqn:Hm; [by apply member_elem_of in Hm|].
  by injection Hr as _ <-.
Qed.

(** [Delete(5)] on [NewSlice([7, 3, 5])]. *)
Lemma Delete_ascending_witness :
  Sorted Z.lt (data (NewSlice [7; 3; 5] false)) ∧
  ∃ ss', Delete 5 (NewSlice [7; 3; 5] false) = Done (true, ss') ∧
         Data ss' = [3; 7].
Proof.
  assert (Hs : Sorted Z.lt (data (NewSlice [7; 3; 5] false))).
  { by apply (bool_decide_unpack _). }
  split; [exact Hs|].
  destruct (Delete_ascending 5 (NewSlice [7; 3; 5] false) Hs) as (ss' & Hr & _).
  exists ss'. split; [exact Hr|].
  vm_compute in Hr. by injection Hr as <-.
Defined.

(** ** [Insert] *)

(** On any slice, sorted or not, [Insert] does not panic; it returns
    [false] and changes nothing, the element being in the slice, or
    returns [true] with the element added once: no element is lost, and
    the elements that were there keep their order. *)
Theorem Insert_adds_or_refuses (x : Z) (ss : TSortedSlice) :
  ∃ r, Insert x ss = Done r ∧
       (r.1 = false → r.2 = ss ∧ x ∈ data ss) ∧
       (r.1 = true →
        data r.2 ≡ₚ x :: data ss ∧ data ss `sublist_of` data r.2 ∧
        safe r.2 = safe ss).
Proof.
  unfold Insert. rewrite insert_unfold.
  pose proof (BinarySearch_found (data ss) x) as Hfound.
  destruct (slices_BinarySearch (data ss) x).2.
  - destruct Hfound as [_ Hx]; [done|].
    eexists. split; [done|]. simpl. split; [|done].
    intros _. split; [done|]. by eapply list_elem_of_lookup_2.
  - eexists. split; [done|]. simpl. split; [done|]. intros _.
    split_and!; [|by apply sublist_inserts_r|done].
    by rewrite Permutation_app_comm.
Qed.

(** On a sorted slice, duplicates or not, [Insert] returns [true]
    exactly for an element that is absent: it adds no second copy of an
    element. *)
Theorem Insert_true_iff_absent (x : Z) (ss : TSortedSlice) :
  Sorted Z.le (data ss) →
  ∃ ss', Insert x ss = Done (bool_decide (x ∉ data ss), ss') ∧
         (x ∈ data ss → ss' = ss).
Proof.
  intros Hs. unfold Insert. rewrite insert_unfold.
  destruct (BinarySearch_sorted (data ss) x Hs) as [_ Hmem].
  destruct (slices_BinarySearch (data ss) x).2.
  - assert (Hx : x ∈ data ss) by by apply Hmem.
    exists ss. split; [|done]. do 2 f_equal. symmetry.
    apply bool_decide_eq_false. by intros ?.
  - assert (Hx : x ∉ data ss) by (by intros ?%Hmem).
    exists (set_data ss (data ss ++ [x])). split; [|done].
    do 2 f_equal. symmetry. by apply bool_decide_eq_true.
Qed.

(** [Insert(4)] on [NewSlice([4, 2, 4])]. *)
Lemma Insert_true_iff_absent_witness :
  Sorted Z.le (data (NewSlice [4; 2; 4] false)) ∧
  Insert 4 (NewSlice [4; 2; 4] false) = Done (false, NewSlice [4; 2; 4] false).
Proof.
  assert (Hs : Sorted Z.le (data (NewSlice [4; 2; 4] false))).
  { by apply (bool_decide_unpack _). }
  split; [exact Hs|].
  destruct (Insert_true_iff_absent 4 (NewSlice [4; 2; 4] false) Hs)
    as (ss' & Hr & Hsame).
  rewrite Hr, Hsame; [reflexivity|].
  by apply (bool_decide_unpack _).
Defined.

(** [Insert(9)] then [Delete(9)] on [NewSlice([7, 3, 5])]. *)
Lemma Insert_Delete_above_witness :
  Sorted Z.lt (data (NewSlice [7; 3; 5] false)) ∧
  Forall (λ y, y < 9) (data (NewSlice [7; 3; 5] false)) ∧
  (r ← Insert 9 (NewSlice [7; 3; 5] false); Delete 9 r.2)
    = Done (true, NewSlice [7; 3; 5] false).
Proof.
  split; [by apply (bool_decide_unpack _)|].
  split; [by apply (bool_decide_unpack _)|].
  apply (Insert_Delete_above 9 (NewSlice [7; 3; 5] false));
    by apply (bool_decide_unpack _).
Defined.

(** ** [Rename] *)

(** [Rename] of a value that the set does not hold is [Insert] of the new
    value, on a sorted slice that is not empty and for two different
    values; on the empty set and for equal values it does nothing. *)
Theorem Rename_absent_is_Insert (aOldValue aNewValue : Z) (ss : TSortedSlice) :
  Sorted Z.le (data ss) → aOldValue ∉ data ss →
  Rename aOldValue aNewValue ss =
    if bool_decide (data ss = [] ∨ aOldValue = aNewValue)
    then Done (false, ss) else Insert aNewValue ss.
Proof.
  intros Hs Hout. unfold Rename, Insert. rewrite rename_unfold.
  destruct (BinarySearch_sorted (data ss) aOldValue Hs) as [_ Hmem].
  destruct ((0 =? len (data ss)) || (aOldValue =? aNewValue)) eqn:Hguard.
  - rewrite bool_decide_eq_true_2; [done|].
    apply orb_true_iff in Hguard as [?%len_zero|?%Z.eqb_eq]; auto.
  - apply orb_false_iff in Hguard as [Hne Hxy].
    rewrite bool_decide_eq_false_2.
    2:{ intros [Hnil|Heq].
        - apply len_zero in Hnil. congruence.
        - apply Z.eqb_eq in Heq. congruence. }
    destruct (slices_BinarySearch (data ss) aOldValue).2; [|done].
    destruct Hout. by apply Hmem.
Qed.

(** [Rename(4, 9)] on [NewSlice([7, 3, 5])]. *)
Lemma Rename_absent_is_Insert_witness :
  Sorted Z.le (data (NewSlice [7; 3; 5] false)) ∧
  (4 ∉ data (NewSlice [7; 3; 5] false)) ∧
  Data <$> (r ← Rename 4 9 (NewSlice [7; 3; 5] false); Done r.2)
    = Done [3; 5; 7; 9].
Proof.
  assert (Hs : Sorted Z.le (data (NewSlice [7; 3; 5] false))).
  { by apply (bool_decide_unpack _). }
  assert (Hout : 4 ∉ data (NewSlice [7; 3; 5] false)).
  { by apply (bool_decide_unpack _). }
  split; [exact Hs|]. split; [exact Hout|].
  rewrite (Rename_absent_is_Insert 4 9 (NewSlice [7; 3; 5] false) Hs Hout).
  reflexivity.
Defined.

(** [Rename] of an element of a strictly ascending set to a value above
    the whole set returns [true]; the set is then strictly ascending and
    holds the new value in place of the old one. *)
Theorem Rename_to_value_above (aOldValue aNewValue : Z) (ss : TSortedSlice) :
  Sorted Z.lt (data ss) → aOldValue ∈ data ss →
  Forall (λ y, y < aNewValue) (data ss) →
  ∃ ss', Rename aOldValue aNewValue ss = Done (true, ss') ∧
         Sorted Z.lt (Data ss') ∧
         ∀ y, y ∈ Data ss' ↔
              y = aNewValue ∨ (y ∈ data ss ∧ y ≠ aOldValue).
Proof.
  intros Hs Hin Habove. unfold Rename, Data. rewrite rename_unfold.
  assert (Hnew : aNewValue ∉ data ss).
  { intros Hx. rewrite Forall_forall in Habove. specialize (Habove _ Hx). lia. }
  assert (Hne : aOldValue ≠ aNewValue) by (by intros ->).
  assert (Hlen : (0 =? len (data ss)) = false).
  { destruct (0 =? len (data ss)) eqn:Hl; [|done].
    apply len_zero in Hl. rewrite Hl in Hin. by apply elem_of_nil in Hin. }
  rewrite Hlen, (proj2 (Z.eqb_neq _ _) Hne). cbn [orb].
  rewrite !(BinarySearch_member _ _ Hs).
  apply member_elem_of in Hin as Hm. rewrite Hm.
  destruct (member aNewValue (data ss)) eqn:Hm';
    [by apply member_elem_of in Hm'|].
  pose proof (ascending_snoc _ _ Hs Habove) as Hs'.
  destruct (delete_ascending aOldValue (set_data ss (data ss ++ [aNewValue])) Hs')
    as ([b ss'] & Hr & Hs'' & Hb & Hel).
  simpl in *. exists ss'. split_and!; [|done|].
  - rewrite Hr, Hb. do 2 f_equal. apply member_elem_of, elem_of_app. by left.
  - intros y. rewrite Hel, elem_of_app, list_elem_of_singleton. split.
    + intros [[?|Hy] ?]; [by right|by left].
    + intros [Hy|[? ?]]; (split; [tauto|]); [|done].
      rewrite Hy. by intros ->.
Qed.

(** [Rename(4, 7)] on the set of [main.go]. *)
Lemma Rename_to_value_above_witness :
  Sorted Z.lt (data (NewSlice [5; 3; 4; 1; 2] false)) ∧
  (4 ∈ data (NewSlice [5; 3; 4; 1; 2] false)) ∧
  Forall (λ y, y < 7) (data (NewSlice [5; 3; 4; 1; 2] false)) ∧
  ∃ ss', Rename 4 7 (NewSlice [5; 3; 4; 1; 2] false) = Done (true, ss') ∧
         Data ss' = [1; 2; 3; 5; 7].
Proof.
  split; [by apply (bool_decide_unpack _)|].
  split; [by apply (bool_decide_unpack _)|].
  split; [by apply (bool_decide_unpack _)|].
  destruct (Rename_to_value_above 4 7 (NewSlice [5; 3; 4; 1; 2] false))
    as (ss' & Hr & _); [by apply (bool_decide_unpack _)..|].
  exists ss'. split; [exact Hr|].
  vm_compute in Hr. by injection Hr as <-.
Defined.

(** ** No call panics *)

Lemma apply_op_Done (o : op) (ss : TSortedSlice) :
  ∃ r, apply_op o ss = Done r ∧
       (length (data r.2) ≤ S (length (data ss)))%nat.
Proof.
  assert (Hins : ∀ x ss, ∃ r, insert x ss = Done r ∧
                    (length (data r.2) ≤ S (length (data ss)))%nat).
  { intros x ss0. rewrite insert_unfold.
    destruct (slices_BinarySearch (data ss0) x).2; eexists; (split; [done|]);
      simpl; rewrite ?length_app; simpl; lia. }
  assert (Hdel : ∀ x ss, ∃ r, delete x ss = Done r ∧
                    (length (data r.2) ≤ length (data ss))%nat).
  { intros x ss0. rewrite delete_unfold.
    destruct (slices_BinarySearch (data ss0) x).2; eexists; (split; [done|]);
      simpl; rewrite ?length_app, ?length_take, ?length_drop; lia. }
  destruct o as [x|x|x y]; simpl.
  - apply Hins.
  - destruct (Hdel x ss) as (r & ? & ?). exists r. split; [done|lia].
  - unfold Rename. rewrite rename_unfold.
    destruct ((0 =? len (data ss)) || (x =? y)).
    { eexists. split; [done|]. simpl. lia. }
    destruct (slices_BinarySearch (data ss) x).2; [|apply Hins].
    destruct (slices_BinarySearch (data ss) y).2.
    + eexists. split; [done|]. simpl.
      rewrite (Permutation_length (slices_Sort_Permutation _)), length_insert. lia.
    + destruct (Hdel x (set_data ss (data ss ++ [y]))) as (r & ? & Hl).
      exists r. split; [done|]. simpl in Hl. rewrite length_app in Hl.
      simpl in Hl. lia.
Qed.

(** Whatever the slice holds, sorted or not, no sequence of [Insert],
    [Delete] and [Rename] calls panics, and a call adds at most one
    element. *)
Theorem set_calls_never_panic (ops : list op) (ss : TSortedSlice) :
  ∃ ss', run ops ss = Done ss' ∧
         (length (data ss') ≤ length (data ss) + length ops)%nat.
Proof.
  revert ss. induction ops as [|o ops IH]; intros ss; simpl.
  - exists ss. split; [done|lia].
  - destruct (apply_op_Done o ss) as (r & -> & Hl). simpl.
    destruct (IH r.2) as (ss' & -> & Hl'). exists ss'. split; [done|lia].
Qed.

End SortedSliceMore.

(** * Further properties of [TSortedMap] *)

Section SortedMapMore.
Import SortedMap.
Context {V : Type} `{ZeroValue V}.
Implicit Types (sm : TSortedMap V) (m : gmap Z V) (ks : list Z).

(** Where the [range] loop stops is the first occurrence of the key. *)
Lemma range_find_Some (aKey i0 i : Z) ks :
  range_find aKey i0 ks = Some i →
  ∃ front back, ks = front ++ aKey :: back ∧ (aKey ∉ front) ∧
                i = i0 + len front.
Proof.
  intros Hfind. destruct (decide (aKey ∈ ks)) as [Hin|Hout].
  - destruct (range_find_elem_of aKey i0 ks Hin)
      as (front & back & Hks & Hfront & Hi).
    exists front, back. split_and!; [done..|congruence].
  - rewrite range_find_not_elem_of in Hfind; done.
Qed.

(** The key slice left by the loop of [delete], on any key slice. *)
Lemma delete_keys_Done (aKey : Z) ks :
  ∃ ks',
    match range_find aKey 0 ks with
    | Some i =>
        front ← slice_hi ks i; back ← slice_lo ks (i + 1); Done (front ++ back)
    | None => Done ks
    end = Done ks' ∧
    (aKey ∉ ks → ks' = ks) ∧
    (∀ front back, ks = front ++ aKey :: back → aKey ∉ front →
                   ks' = front ++ back).
Proof.
  destruct (range_find aKey 0 ks) as [i|] eqn:Hfind.
  - destruct (range_find_Some _ _ _ _ Hfind) as (front & back & -> & Hfront & ->).
    rewrite slice_hi_in_range, slice_lo_in_range
      by (rewrite len_app; unfold len; simpl length; lia).
    cbn [mbind outcome_bind].
    replace (Z.to_nat (0 + len front)) with (length front) by (unfold len; lia).
    replace (Z.to_nat (0 + len front + 1)) with (S (length front))
      by (unfold len; lia).
    rewrite take_app_length, drop_S_middle.
    eexists. split; [done|]. split.
    + intros Hout. destruct Hout. apply elem_of_app. right. by left.
    + intros front' back' Heq Hfront'.
      destruct (decide (length front = length front')) as [Hl|Hl].
      * apply app_inj_1 in Heq as [-> Heq]; [|done]. by injection Heq as ->.
      * exfalso.
        assert (Hlook : (front ++ aKey :: back) !! length front = Some aKey).
        { by rewrite list_lookup_middle. }
        assert (Hlook' : (front ++ aKey :: back) !! length front' = Some aKey).
        { rewrite Heq. by rewrite list_lookup_middle. }
        destruct (decide (length front < length front')%nat).
        -- rewrite Heq, lookup_app_l in Hlook by done.
           by apply list_elem_of_lookup_2 in Hlook.
        -- rewrite lookup_app_l in Hlook' by lia.
           by apply list_elem_of_lookup_2 in Hlook'.
  - eexists. split; [done|]. split; [done|].
    intros front back -> _.
    destruct (range_find_elem_of aKey 0 (front ++ aKey :: back))
      as (? & ? & _ & _ & Hf); [|congruence].
    apply elem_of_app. right. by left.
Qed.


(** Two maps with the same entries and keys in step have the same key
    slice. *)
Lemma keys_in_step_unique sm sm' :
  keys_in_step sm → keys_in_step sm' → data sm = data sm' →
  keys sm = keys sm'.
Proof.
  intros Hinv Hinv' Hdata.
  apply (Sorted_unique Z.le).
  - apply ascending_sorted, Hinv.
  - apply ascending_sorted, Hinv'.
  - apply NoDup_Permutation; [by apply keys_in_step_NoDup..|].
    intros k. by rewrite !keys_in_step_elem_of, Hdata.
Qed.

(** ** [Delete] *)

(** [Delete] on a map whose keys are in step returns [true] exactly for
    a key of the map; afterwards [Get] does not find the key, the other
    keys keep their values, [Keys] has lost the key and no other, and the
    keys are in step; a key that is absent leaves the map as it is. *)
Theorem Delete_removes_key (aKey : Z) sm :
  keys_in_step sm →
  ∃ sm', Delete aKey sm = Done (bool_decide (is_Some (data sm !! aKey)), sm') ∧
         keys_in_step sm' ∧
         Get aKey sm' = (zero_value, false) ∧
         (∀ k, k ≠ aKey → Get k sm' = Get k sm) ∧
         (∀ k, k ∈ Keys sm' ↔ k ∈ Keys sm ∧ k ≠ aKey) ∧
         (data sm !! aKey = None → sm' = sm).
Proof.
  intros Hinv.
  destruct (delete_in_step aKey sm Hinv) as ([b sm'] & Hr & Hinv' & Hb & Hdata).
  simpl in *. exists sm'. unfold Delete, Get, Keys. simpl.
  split_and!; [by rewrite Hr, Hb|done| | | |].
  - rewrite Hdata. apply comma_ok_None, lookup_delete_eq.
  - intros k Hk. unfold comma_ok. by rewrite Hdata, lookup_delete_ne.
  - intros k. rewrite !keys_in_step_elem_of, Hdata by done.
    destruct (decide (k = aKey)) as [->|Hk].
    + rewrite lookup_delete_eq. split; [by intros [? ?]|tauto].
    + rewrite lookup_delete_ne by done. tauto.
  - intros Hk. unfold delete, comma_ok in Hr. rewrite Hk in Hr.
    by injection Hr as _ <-.
Qed.


(** ** [Insert] and [Get] *)


(** [Delete(k)] after [Insert(k, v)] gives back the map, when its keys
    are in step and [k] was not a key. *)
Theorem Insert_Delete_restores_map (aKey : Z) (aValue : V) sm :
  keys_in_step sm → data sm !! aKey = None →
  (r ← Insert aKey aValue sm; Delete aKey r.2) = Done (true, sm).
Proof.
  intros Hinv Hk.
  destruct (insert_in_step aKey aValue sm Hinv Hk)
    as (front & back & Hkeys & Hfront & Hback & Hins).
  unfold Insert, Delete. rewrite Hins. cbn [mbind outcome_bind snd].
  unfold delete, comma_ok. cbn [data keys safe].
  rewrite lookup_insert_eq. cbn [snd].
  assert (Hout : aKey ∉ front).
  { intros Hin. rewrite Forall_forall in Hfront. specialize (Hfront _ Hin). lia. }
  destruct (delete_keys_Done aKey (front ++ aKey :: back))
    as (ks' & -> & _ & Hks'). cbn [mbind outcome_bind].
  rewrite (Hks' front back eq_refl Hout), delete_insert_eq, delete_id by done.
  rewrite <- Hkeys. by destruct sm.
Qed.


(** ** [Rename] *)

(** [Rename(b, a)] after [Rename(a, b)] gives back the map, when its keys
    are in step, [a] is a key and [b] is not. *)
Theorem Rename_there_and_back (aOldKey aNewKey : Z) sm :
  keys_in_step sm →
  is_Some (data sm !! aOldKey) → data sm !! aNewKey = None →
  (r ← Rename aOldKey aNewKey sm; Rename aNewKey aOldKey r.2)
    = Done (true, sm).
Proof.
  intros Hinv [v Hold] Hnew.
  assert (Hne : aOldKey ≠ aNewKey) by congruence.
  destruct (rename_keeps_step aOldKey aNewKey sm Hinv) as (r & Hr & Hinv1).
  destruct (rename_in_step _ _ v sm Hinv Hnew Hold)
    as (front & back & _ & _ & Hrename).
  rewrite Hrename in Hr. injection Hr as <-.
  unfold Rename. rewrite Hrename. cbn [mbind outcome_bind snd] in *.
  set (sm1 := {| data := <[aNewKey:=v]> (base.delete aOldKey (data sm));
                 keys := slices_Sort (front ++ aNewKey :: back);
                 safe := safe sm |}) in *.
  assert (Hold1 : data sm1 !! aOldKey = None).
  { simpl. rewrite lookup_insert_ne by done. apply lookup_delete_eq. }
  assert (Hnew1 : data sm1 !! aNewKey = Some v) by apply lookup_insert_eq.
  destruct (rename_keeps_step aNewKey aOldKey sm1 Hinv1) as (r2 & Hr2 & Hinv2).
  destruct (rename_in_step _ _ v sm1 Hinv1 Hold1 Hnew1)
    as (front' & back' & _ & _ & Hrename2).
  rewrite Hrename2 in Hr2 |- *. injection Hr2 as <-.
  unfold sm1 in *. simpl in *.
  assert (Hdata : <[aOldKey:=v]> (base.delete aNewKey
                    (<[aNewKey:=v]> (base.delete aOldKey (data sm))))
                  = data sm).
  { rewrite delete_insert_eq.
    rewrite (delete_id (base.delete aOldKey (data sm)) aNewKey)
      by (by rewrite lookup_delete_ne).
    rewrite insert_delete_eq. by apply insert_id. }
  pose proof (keys_in_step_unique _ sm Hinv2 Hinv Hdata) as Hkeys.
  simpl in Hkeys. rewrite Hdata, Hkeys. by destruct sm.
Qed.


(** ** [Clear] *)

(** [Clear] empties the map whatever state it was in: no key is left,
    [Get] finds nothing, [Delete] refuses, the keys are in step, and the
    [safe] flag is kept. *)
Theorem Clear_map_empties (aKey : Z) sm :
  keys_in_step (Clear sm) ∧ Keys (Clear sm) = [] ∧
  Get aKey (Clear sm) = (zero_value, false) ∧
  Delete aKey (Clear sm) = Done (false, Clear sm) ∧
  safe (Clear sm) = safe sm.
Proof.
  split_and!; try reflexivity. apply (NewSortedMap_in_step (safe sm)).
Qed.

(** ** No call panics *)



(** ** [Iterate] and [Iterator] *)

(** [Iterate] calls [f] once for each entry of the map, with the key and
    its value, the keys ascending, and returns the map as it was; the
    keys of the map being in step. *)
Theorem Iterate_visits_entries sm :
  keys_in_step sm →
  ∃ entries : list (Z * V),
    entries.*1 = Keys sm ∧
    (∀ k v, (k, v) ∈ entries ↔ data sm !! k = Some v) ∧
    ∀ (S : Type) (f : Z → V → S → S) (s : S),
      Iterate f sm s = (fold_left (λ s kv, f kv.1 kv.2 s) entries s, sm).
Proof.
  intros Hinv.
  exists ((λ k, (k, map_index (data sm) k)) <$> keys sm). split_and!.
  - unfold Keys. simpl.
    induction (keys sm) as [|k ks IH]; [done|]. by rewrite !fmap_cons, IH.
  - intros k v. rewrite list_elem_of_fmap. split.
    + intros (k' & [= -> ->] & Hk). apply (keys_in_step_elem_of _ _ Hinv) in Hk.
      destruct Hk as [w Hw]. unfold map_index, comma_ok. by rewrite Hw.
    + intros Hk. exists k. split.
      * unfold map_index, comma_ok. by rewrite Hk.
      * apply (keys_in_step_elem_of _ _ Hinv). eauto.
  - intros S f s. unfold Iterate. f_equal. revert s.
    induction (keys sm) as [|k ks IH]; intros s; [done|]. simpl. apply IH.
Qed.

(** [n] calls of the closure from position [i] of the keys. *)
Lemma calls_from (n i : nat) sm :
  (i ≤ length (keys sm))%nat →
  calls n {| idx := Z.of_nat i |} sm =
    Done (take n (drop i ((λ k, (k, map_index (data sm) k, true)) <$> keys sm))
            ++ replicate (n - (length (keys sm) - i)) (0, zero_value, false),
          {| idx := Z.of_nat ((i + n) `min` length (keys sm)) |}).
Proof.
  revert i. induction n as [|n IH]; intros i Hi.
  - simpl. by rewrite Nat.add_0_r, Nat.min_l by done.
  - cbn [calls]. unfold next. cbn [idx]. unfold len.
    destruct (Z.ltb_spec (Z.of_nat i) (Z.of_nat (length (keys sm)))) as [Hlt|Hge].
    + destruct (lookup_lt_is_Some_2 (keys sm) i ltac:(lia)) as [k Hk].
      rewrite (index_in_range _ _ k) by (rewrite ?Nat2Z.id; done || lia).
      cbn [mbind outcome_bind fst snd].
      replace (Z.of_nat i + 1) with (Z.of_nat (S i)) by lia.
      rewrite IH by lia. cbn [mbind outcome_bind fst snd].
      rewrite (drop_S _ (k, map_index (data sm) k, true) i)
        by (by rewrite list_lookup_fmap, Hk).
      simpl take.
      replace (S n - (length (keys sm) - i))%nat
        with (n - (length (keys sm) - S i))%nat by lia.
      by replace (S i + n)%nat with (i + S n)%nat by lia.
    + assert (i = length (keys sm)) as Hi' by lia.
      cbn [mbind outcome_bind fst snd]. rewrite IH by lia.
      cbn [mbind outcome_bind fst snd].
      rewrite !drop_ge by (rewrite length_fmap; lia). rewrite !take_nil.
      rewrite Hi', !Nat.sub_diag, !Nat.sub_0_r. simpl.
      by rewrite !Nat.min_r by lia.
Qed.

(** The closure of [Iterator], called [n] times on a map that is not
    changed meanwhile, does not panic: it yields the keys in the order of
    the key slice, each with its value and [true], and from the end of
    the keys on the zero key and value with [false]; it never starts
    again. *)
Theorem Iterator_yields_entries (n : nat) sm :
  calls n (Iterator sm) sm =
    Done (take n ((λ k, (k, map_index (data sm) k, true)) <$> keys sm)
            ++ replicate (n - length (keys sm)) (0, zero_value, false),
          {| idx := Z.of_nat (n `min` length (keys sm)) |}).
Proof.
  unfold Iterator. change 0 with (Z.of_nat 0).
  rewrite calls_from by lia. by rewrite drop_0, Nat.sub_0_r.
Qed.

(** ** [FindIndex] *)

Context `{EqDecision V}.

Lemma findIndex_filter (aValue : V) sm :
  findIndex aValue sm
  = filter (λ k, map_index (data sm) k = aValue) (keys sm).
Proof.
  unfold findIndex.
  assert (Hgen : ∀ ks acc,
    fold_left (λ result key,
                 if decide (map_index (data sm) key = aValue)
                 then result ++ [key] else result) ks acc
    = acc ++ filter (λ k, map_index (data sm) k = aValue) ks).
  { induction ks as [|k ks IH]; intros acc; simpl.
    - by rewrite app_nil_r.
    - rewrite IH, filter_cons. destruct (decide _); [|done].
      by rewrite <- app_assoc. }
  by rewrite Hgen.
Qed.

Lemma ascending_filter (P : Z → Prop) `{∀ x, Decision (P x)} (s : list Z) :
  Sorted Z.lt s → Sorted Z.lt (filter P s).
Proof.
  rewrite !ascending_strongly. induction 1 as [|x s Hs IH Hx]; [constructor|].
  rewrite filter_cons. destruct (decide (P x)); [|done].
  constructor; [done|]. rewrite Forall_forall in *.
  intros y [_ Hy]%list_elem_of_filter. by apply Hx.
Qed.

(** [FindIndex(v)] on a map whose keys are in step returns the keys whose
    value is [v], all of them and no other, the keys ascending. *)
Theorem FindIndex_keys_of_value (aValue : V) sm :
  keys_in_step sm →
  Sorted Z.lt (FindIndex aValue sm) ∧
  ∀ k, k ∈ FindIndex aValue sm ↔ data sm !! k = Some aValue.
Proof.
  intros Hinv. unfold FindIndex. rewrite findIndex_filter. split.
  - apply ascending_filter, Hinv.
  - intros k. rewrite list_elem_of_filter, (keys_in_step_elem_of _ _ Hinv).
    unfold map_index, comma_ok. split.
    + intros [Hv [w Hw]]. rewrite Hw in Hv |- *. simpl in Hv. by rewrite Hv.
    + intros Hk. rewrite Hk. eauto.
Qed.

End SortedMapMore.

(** [Delete(1)] on the map [{1: 10, 5: 50}]. *)
Lemma Delete_removes_key_witness :
  SortedMap.keys_in_step
    {| SortedMap.data := ({[ 1 := 10; 5 := 50 ]} : gmap Z Z);
       SortedMap.keys := [1; 5]; SortedMap.safe := false |} ∧
  ∃ sm', SortedMap.Delete 1
           {| SortedMap.data := ({[ 1 := 10; 5 := 50 ]} : gmap Z Z);
              SortedMap.keys := [1; 5]; SortedMap.safe := false |}
           = Done (true, sm') ∧
         SortedMap.Keys sm' = [5].
Proof.
  assert (Hinv : SortedMap.keys_in_step
    {| SortedMap.data := ({[ 1 := 10; 5 := 50 ]} : gmap Z Z);
       SortedMap.keys := [1; 5]; SortedMap.safe := false |}).
  { split; by apply (bool_decide_unpack _). }
  split; [exact Hinv|].
  destruct (Delete_removes_key 1 _ Hinv) as (sm' & Hr & _).
  exists sm'. split; [exact Hr|].
  unfold SortedMap.Delete in Hr. vm_compute in Hr. by injection Hr as <-.
Defined.

(** [Insert(3, 30)] then [Delete(3)] on the map [{1: 10, 5: 50}]. *)
Lemma Insert_Delete_restores_map_witness :
  SortedMap.keys_in_step
    {| SortedMap.data := ({[ 1 := 10; 5 := 50 ]} : gmap Z Z);
       SortedMap.keys := [1; 5]; SortedMap.safe := false |} ∧
  ({[ 1 := 10; 5 := 50 ]} : gmap Z Z) !! 3 = None ∧
  (r ← SortedMap.Insert 3 30
         {| SortedMap.data := ({[ 1 := 10; 5 := 50 ]} : gmap Z Z);
            SortedMap.keys := [1; 5]; SortedMap.safe := false |};
   SortedMap.Delete 3 r.2)
    = Done (true,
        {| SortedMap.data := ({[ 1 := 10; 5 := 50 ]} : gmap Z Z);
           SortedMap.keys := [1; 5]; SortedMap.safe := false |}).
Proof.
  assert (Hinv : SortedMap.keys_in_step
    {| SortedMap.data := ({[ 1 := 10; 5 := 50 ]} : gmap Z Z);
       SortedMap.keys := [1; 5]; SortedMap.safe := false |}).
  { split; by apply (bool_decide_unpack _). }
  split; [exact Hinv|]. split; [reflexivity|].
  apply (Insert_Delete_restores_map 3 30 _ Hinv). reflexivity.
Defined.

(** [Rename(1, 7)] then [Rename(7, 1)] on the map [{1: 10, 5: 50}]. *)
Lemma Rename_there_and_back_witness :
  SortedMap.keys_in_step
    {| SortedMap.data := ({[ 1 := 10; 5 := 50 ]} : gmap Z Z);
       SortedMap.keys := [1; 5]; SortedMap.safe := false |} ∧
  (r ← SortedMap.Rename 1 7
         {| SortedMap.data := ({[ 1 := 10; 5 := 50 ]} : gmap Z Z);
            SortedMap.keys := [1; 5]; SortedMap.safe := false |};
   SortedMap.Rename 7 1 r.2)
    = Done (true,
        {| SortedMap.data := ({[ 1 := 10; 5 := 50 ]} : gmap Z Z);
           SortedMap.keys := [1; 5]; SortedMap.safe := false |}).
Proof.
  assert (Hinv : SortedMap.keys_in_step
    {| SortedMap.data := ({[ 1 := 10; 5 := 50 ]} : gmap Z Z);
       SortedMap.keys := [1; 5]; SortedMap.safe := false |}).
  { split; by apply (bool_decide_unpack _). }
  split; [exact Hinv|].
  apply (Rename_there_and_back 1 7 _ Hinv); [by eexists|reflexivity].
Defined.

(** [Iterate] with a callback that collects its arguments, on the map
    [{1: 10, 5: 50}]. *)
Lemma Iterate_visits_entries_witness :
  SortedMap.keys_in_step
    {| SortedMap.data := ({[ 1 := 10; 5 := 50 ]} : gmap Z Z);
       SortedMap.keys := [1; 5]; SortedMap.safe := false |} ∧
  ∃ entries : list (Z * Z),
    entries.*1 = [1; 5] ∧
    (SortedMap.Iterate (λ k v s, s ++ [(k, v)])
       {| SortedMap.data := ({[ 1 := 10; 5 := 50 ]} : gmap Z Z);
          SortedMap.keys := [1; 5]; SortedMap.safe := false |} []).1
    = fold_left (λ s kv, s ++ [(kv.1, kv.2)]) entries [].
Proof.
  assert (Hinv : SortedMap.keys_in_step
    {| SortedMap.data := ({[ 1 := 10; 5 := 50 ]} : gmap Z Z);
       SortedMap.keys := [1; 5]; SortedMap.safe := false |}).
  { split; by apply (bool_decide_unpack _). }
  split; [exact Hinv|].
  destruct (Iterate_visits_entries _ Hinv) as (entries & Hkeys & _ & Hfold).
  exists entries. split; [exact Hkeys|].
  by rewrite (Hfold (list (Z * Z)) (λ k v s, s ++ [(k, v)]) []).
Defined.

(** [FindIndex(10)] on the map [{1: 10, 3: 10, 5: 50}]. *)
Lemma FindIndex_keys_of_value_witness :
  SortedMap.keys_in_step
    {| SortedMap.data := ({[ 1 := 10; 3 := 10; 5 := 50 ]} : gmap Z Z);
       SortedMap.keys := [1; 3; 5]; SortedMap.safe := false |} ∧
  Sorted Z.lt
    (SortedMap.FindIndex 10
       {| SortedMap.data := ({[ 1 := 10; 3 := 10; 5 := 50 ]} : gmap Z Z);
          SortedMap.keys := [1; 3; 5]; SortedMap.safe := false |}) ∧
  SortedMap.FindIndex 10
    {| SortedMap.data := ({[ 1 := 10; 3 := 10; 5 := 50 ]} : gmap Z Z);
       SortedMap.keys := [1; 3; 5]; SortedMap.safe := false |} = [1; 3].
Proof.
  assert (Hinv : SortedMap.keys_in_step
    {| SortedMap.data := ({[ 1 := 10; 3 := 10; 5 := 50 ]} : gmap Z Z);
       SortedMap.keys := [1; 3; 5]; SortedMap.safe := false |}).
  { split; by apply (bool_decide_unpack _). }
  split; [exact Hinv|].
  split; [|reflexivity].
  by destruct (FindIndex_keys_of_value 10 _ Hinv) as [Hs _].
Defined.
